(** * go-lexer: a shallow embedding of the scanning engine

    The development follows the Go sources of the [lexer] package:
    the rune stack ([rune_stack.go]), the state stack ([state_stack.go])
    and the lexer itself (type [L] with its methods and [Token]).

    Conventions.
    - A Go [string] is a sequence of bytes: [list byte].
    - Go [int] and [rune] values are integers of [Z]; where the source
      adds to a position or subtracts from it the 64-bit wrap-around is
      written out ([int64]).
    - A method on [*L] is a computation in the monad [M]: it receives the
      lexer, may change it, and finishes normally, by a panic, blocked on
      the token channel, or (loops only) out of fuel.  The lexer is behind
      a pointer in Go, so what a method changed before it panicked stays
      changed: every result carries the lexer.
    - Function values ([StateFunc], the error handler) are named by
      numbers; the caller supplies the table that gives each [StateFunc]
      its body. *)

From Stdlib.Strings Require Import Byte String.
From Stdlib Require Import ZArith List Lia Bool.
Import ListNotations.
Open Scope Z_scope.

(** ** Go strings *)

Definition GoString := list byte.

Definition len (s : GoString) : Z := Z.of_nat (length s).

Definition Z_of_byte (b : byte) : Z := Z.of_N (Byte.to_N b).

(** Go's conversion [byte(x)] keeps the low eight bits. *)
Definition byte_of_Z (z : Z) : byte :=
  match Byte.of_N (Z.to_N (z mod 256)) with
  | Some b => b
  | None => x00
  end.

(** [s[i]] for an index the caller has checked. *)
Definition at_ (s : GoString) (i : nat) : Z := Z_of_byte (nth i s x00).

(** The slice expression [s[lo:hi]]; [None] is the run-time panic
    "slice bounds out of range".  [s[lo:]] is [slice s lo (len s)] and
    [s[:hi]] is [slice s 0 hi]. *)
Definition slice (s : GoString) (lo hi : Z) : option GoString :=
  if (0 <=? lo) && (lo <=? hi) && (hi <=? len s)
  then Some (firstn (Z.to_nat (hi - lo)) (skipn (Z.to_nat lo) s))
  else None.

(** Go's [int] on a 64-bit platform. *)
Definition int64 (z : Z) : Z := (z + 2 ^ 63) mod 2 ^ 64 - 2 ^ 63.

Definition maxInt : Z := 2 ^ 63 - 1.

(** ** unicode/utf8 (Go standard library) *)

Module Utf8.

Definition rune := Z.

Definition RuneError : rune := 0xFFFD.
Definition RuneSelf : rune := 0x80.
Definition MaxRune : rune := 0x10FFFF.

Definition surrogateMin : rune := 0xD800.
Definition surrogateMax : rune := 0xDFFF.

Definition tx : Z := 0x80.
Definition t2 : Z := 0xC0.
Definition t3 : Z := 0xE0.
Definition t4 : Z := 0xF0.

Definition maskx : Z := 0x3F.
Definition mask2 : Z := 0x1F.
Definition mask3 : Z := 0x0F.
Definition mask4 : Z := 0x07.

Definition rune1Max : rune := 0x7F.
Definition rune2Max : rune := 0x7FF.
Definition rune3Max : rune := 0xFFFF.

Definition locb : Z := 0x80.
Definition hicb : Z := 0xBF.

(** Entries of the table [first]: the low three bits are the size, the
    high four bits index [acceptRanges]. *)
Definition xx : Z := 0xF1.
Definition as_ : Z := 0xF0.
Definition s1 : Z := 0x02.
Definition s2 : Z := 0x13.
Definition s3 : Z := 0x03.
Definition s4 : Z := 0x23.
Definition s5 : Z := 0x34.
Definition s6 : Z := 0x04.
Definition s7 : Z := 0x44.

(** The 256-entry table [first], row by row. *)
Definition first (b : Z) : Z :=
  if b <? 0x80 then as_
  else if b <? 0xC2 then xx
  else if b <? 0xE0 then s1
  else if b =? 0xE0 then s2
  else if b <? 0xED then s3
  else if b =? 0xED then s4
  else if b <? 0xF0 then s3
  else if b =? 0xF0 then s5
  else if b <? 0xF4 then s6
  else if b =? 0xF4 then s7
  else xx.

(** [acceptRanges]: sixteen entries, the last eleven zero. *)
Definition acceptRanges (i : Z) : Z * Z :=
  match i with
  | 0 => (locb, hicb)
  | 1 => (0xA0, hicb)
  | 2 => (locb, 0x9F)
  | 3 => (0x90, hicb)
  | 4 => (locb, 0x8F)
  | _ => (0, 0)
  end.

(** [utf8.DecodeRuneInString]. *)
Definition DecodeRuneInString (s : GoString) : rune * Z :=
  let n := len s in
  if n <? 1 then (RuneError, 0) else
  let s0 := at_ s 0 in
  let x := first s0 in
  if as_ <=? x then
    (* mask := rune(x) << 31 >> 31 is all ones when bit 0 of x is set *)
    let mask := if Z.testbit x 0 then -1 else 0 in
    (Z.lor (Z.land s0 (Z.lnot mask)) (Z.land RuneError mask), 1)
  else
  let sz := Z.land x 7 in
  let accept := acceptRanges (Z.shiftr x 4) in
  if n <? sz then (RuneError, 1) else
  let b1 := at_ s 1 in
  if (b1 <? fst accept) || (snd accept <? b1) then (RuneError, 1) else
  if sz <=? 2 then
    (Z.lor (Z.shiftl (Z.land s0 mask2) 6) (Z.land b1 maskx), 2)
  else
  let b2 := at_ s 2 in
  if (b2 <? locb) || (hicb <? b2) then (RuneError, 1) else
  if sz <=? 3 then
    (Z.lor (Z.lor (Z.shiftl (Z.land s0 mask3) 12)
                  (Z.shiftl (Z.land b1 maskx) 6))
           (Z.land b2 maskx), 3)
  else
  let b3 := at_ s 3 in
  if (b3 <? locb) || (hicb <? b3) then (RuneError, 1) else
  (Z.lor (Z.lor (Z.lor (Z.shiftl (Z.land s0 mask4) 18)
                       (Z.shiftl (Z.land b1 maskx) 12))
                (Z.shiftl (Z.land b2 maskx) 6))
         (Z.land b3 maskx), 4).

(** [utf8.RuneLen]. *)
Definition RuneLen (r : rune) : Z :=
  if r <? 0 then -1
  else if r <=? rune1Max then 1
  else if r <=? rune2Max then 2
  else if (surrogateMin <=? r) && (r <=? surrogateMax) then -1
  else if r <=? rune3Max then 3
  else if r <=? MaxRune then 4
  else -1.

(** [utf8.ValidRune]. *)
Definition ValidRune (r : rune) : bool :=
  ((0 <=? r) && (r <? surrogateMin)) ||
  ((surrogateMax <? r) && (r <=? MaxRune)).

(** [utf8.AppendRune(nil, r)], the bytes [utf8.EncodeRune] writes.
    [i] is [uint32(r)]. *)
Definition EncodeRune (r : rune) : GoString :=
  let i := r mod 2 ^ 32 in
  let three (r : rune) :=
    [ byte_of_Z (Z.lor t3 (Z_of_byte (byte_of_Z (Z.shiftr r 12))))
    ; byte_of_Z (Z.lor tx (Z.land (Z_of_byte (byte_of_Z (Z.shiftr r 6))) maskx))
    ; byte_of_Z (Z.lor tx (Z.land (Z_of_byte (byte_of_Z r)) maskx)) ] in
  if i <=? rune1Max then [ byte_of_Z r ]
  else if i <=? rune2Max then
    [ byte_of_Z (Z.lor t2 (Z_of_byte (byte_of_Z (Z.shiftr r 6))))
    ; byte_of_Z (Z.lor tx (Z.land (Z_of_byte (byte_of_Z r)) maskx)) ]
  else if (MaxRune <? i) || ((surrogateMin <=? i) && (i <=? surrogateMax))
  then three RuneError
  else if i <=? rune3Max then three r
  else
    [ byte_of_Z (Z.lor t4 (Z_of_byte (byte_of_Z (Z.shiftr r 18))))
    ; byte_of_Z (Z.lor tx (Z.land (Z_of_byte (byte_of_Z (Z.shiftr r 12))) maskx))
    ; byte_of_Z (Z.lor tx (Z.land (Z_of_byte (byte_of_Z (Z.shiftr r 6))) maskx))
    ; byte_of_Z (Z.lor tx (Z.land (Z_of_byte (byte_of_Z r)) maskx)) ].

(** The runes a [for _, r := range s] loop sees, with the index of each.
    A step consumes at least one byte, so [length s] steps are enough. *)
Fixpoint range_from (fuel : nat) (i : Z) (s : GoString) : list (Z * rune) :=
  match fuel with
  | O => []
  | S fuel' =>
      match s with
      | [] => []
      | _ :: _ =>
          let '(r, w) := DecodeRuneInString s in
          (i, r) :: range_from fuel' (i + w) (skipn (Z.to_nat w) s)
      end
  end.

Definition range (s : GoString) : list (Z * rune) :=
  range_from (length s) 0 s.

(** The text as a sequence of runes: [[]rune(s)]. *)
Definition runes (s : GoString) : list rune := map snd (range s).

(** The encoding of a sequence of runes: [string(rs)]. *)
Definition encode (rs : list rune) : GoString := flat_map EncodeRune rs.

End Utf8.

Import Utf8.

(** ** strings (Go standard library) *)

Module Strings.

Fixpoint IndexByte_from (i : Z) (s : GoString) (c : byte) : Z :=
  match s with
  | [] => -1
  | b :: t => if Byte.eqb b c then i else IndexByte_from (i + 1) t c
  end.

(** [strings.IndexByte]. *)
Definition IndexByte (s : GoString) (c : byte) : Z := IndexByte_from 0 s c.

Fixpoint HasPrefix (s prefix : GoString) : bool :=
  match prefix, s with
  | [], _ => true
  | _ :: _, [] => false
  | p :: prefix', b :: s' => Byte.eqb p b && HasPrefix s' prefix'
  end.

Fixpoint Index_from (i : Z) (s substr : GoString) : Z :=
  if HasPrefix s substr then i
  else match s with
       | [] => -1
       | _ :: t => Index_from (i + 1) t substr
       end.

(** [strings.Index]. *)
Definition Index (s substr : GoString) : Z := Index_from 0 s substr.

Fixpoint first_RuneError (its : list (Z * rune)) : Z :=
  match its with
  | [] => -1
  | (i, r) :: t => if r =? RuneError then i else first_RuneError t
  end.

(** [strings.IndexRune]. *)
Definition IndexRune (s : GoString) (r : rune) : Z :=
  if (0 <=? r) && (r <? RuneSelf) then IndexByte s (byte_of_Z r)
  else if r =? RuneError then first_RuneError (range s)
  else if negb (ValidRune r) then -1
  else Index s (EncodeRune r).

(** [strings.ContainsRune]. *)
Definition ContainsRune (s : GoString) (r : rune) : bool :=
  0 <=? IndexRune s r.

End Strings.

(** ** The rune stack ([rune_stack.go]) *)

Definition TokenType := Z.

Definition EOFToken : TokenType := -1.

Module runeStack.

(** The linked list of [runeNode]s from [start]; [nil] is the empty list. *)
Definition t := list rune.

Definition NewRuneStack : t := [].

Definition Push (r : rune) (s : t) : t := r :: s.

Definition Pop (s : t) : rune * t :=
  match s with
  | [] => (EOFToken, [])
  | r :: next => (r, next)
  end.

Definition Clear (s : t) : t := [].

End runeStack.

(** ** The state stack ([state_stack.go]) *)

(** A [StateFunc] value is named by a number; Go's [nil] is [None]. *)
Definition StateFunc := nat.

Module stateStack.

Definition t := list StateFunc.

Definition NewStateStack : t := [].

Definition Push (f : StateFunc) (s : t) : t := f :: s.

Definition Pop (s : t) : option StateFunc * t :=
  match s with
  | [] => (None, [])
  | f :: next => (Some f, next)
  end.

Definition Clear (s : t) : t := [].

End stateStack.

(** ** Tokens and the token channel *)

Module Token.

Record t := mk
  { Type_ : TokenType
  ; Value : GoString
  ; Start : Z
  ; End_ : Z }.

End Token.

(** A [chan Token] made with capacity [cap].  [queue] holds the tokens
    sent and not yet received, oldest first; the channel is full when
    [queue] holds [cap] tokens. *)
Record Chan := mkChan
  { cap : Z
  ; queue : list Token.t
  ; closed : bool }.

Definition make_chan (size : Z) : Chan :=
  {| cap := size; queue := []; closed := false |}.

(** ** The lexer *)

(** The registered [ErrorHandler] is named by a number. *)
Definition Handler := nat.

Record L := mkL
  { Input : GoString
  ; Start : Z
  ; Position : Z
  ; StartState : option StateFunc
  ; Err : option GoString
  ; Tokens : option Chan
  ; ErrorHandler : option Handler
  ; Rewind : runeStack.t
  ; StateRecord : stateStack.t
    (* ghost: the calls made to the error handler, oldest first *)
  ; HandlerCalls : list (Handler * GoString) }.

Definition set_Input (v : GoString) (l : L) : L :=
  mkL v (Start l) (Position l) (StartState l) (Err l) (Tokens l)
      (ErrorHandler l) (Rewind l) (StateRecord l) (HandlerCalls l).

Definition set_Start (v : Z) (l : L) : L :=
  mkL (Input l) v (Position l) (StartState l) (Err l) (Tokens l)
      (ErrorHandler l) (Rewind l) (StateRecord l) (HandlerCalls l).

Definition set_Position (v : Z) (l : L) : L :=
  mkL (Input l) (Start l) v (StartState l) (Err l) (Tokens l)
      (ErrorHandler l) (Rewind l) (StateRecord l) (HandlerCalls l).

Definition set_Err (v : option GoString) (l : L) : L :=
  mkL (Input l) (Start l) (Position l) (StartState l) v (Tokens l)
      (ErrorHandler l) (Rewind l) (StateRecord l) (HandlerCalls l).

Definition set_Tokens (v : option Chan) (l : L) : L :=
  mkL (Input l) (Start l) (Position l) (StartState l) (Err l) v
      (ErrorHandler l) (Rewind l) (StateRecord l) (HandlerCalls l).

Definition set_ErrorHandler (v : option Handler) (l : L) : L :=
  mkL (Input l) (Start l) (Position l) (StartState l) (Err l) (Tokens l)
      v (Rewind l) (StateRecord l) (HandlerCalls l).

Definition set_Rewind (v : runeStack.t) (l : L) : L :=
  mkL (Input l) (Start l) (Position l) (StartState l) (Err l) (Tokens l)
      (ErrorHandler l) v (StateRecord l) (HandlerCalls l).

Definition set_StateRecord (v : stateStack.t) (l : L) : L :=
  mkL (Input l) (Start l) (Position l) (StartState l) (Err l) (Tokens l)
      (ErrorHandler l) (Rewind l) v (HandlerCalls l).

Definition set_HandlerCalls (v : list (Handler * GoString)) (l : L) : L :=
  mkL (Input l) (Start l) (Position l) (StartState l) (Err l) (Tokens l)
      (ErrorHandler l) (Rewind l) (StateRecord l) v.

(** ** The monad of lexer methods *)

Inductive PanicValue :=
| RuntimeError                 (* slice bounds out of range, send on or
                                  close of a closed or nil channel *)
| PanicString (e : GoString).  (* panic(e) *)

Inductive Result (A : Type) :=
| Ok (a : A) (l : L)
| Panic (v : PanicValue) (l : L)
| Blocked (l : L)
| OutOfFuel (l : L).

Arguments Ok {A} a l.
Arguments Panic {A} v l.
Arguments Blocked {A} l.
Arguments OutOfFuel {A} l.

Definition M (A : Type) := L -> Result A.

Definition ret {A} (a : A) : M A := fun l => Ok a l.

Definition bind {A B} (m : M A) (k : A -> M B) : M B :=
  fun l =>
    match m l with
    | Ok a l' => k a l'
    | Panic v l' => Panic v l'
    | Blocked l' => Blocked l'
    | OutOfFuel l' => OutOfFuel l'
    end.

Declare Scope lexer_scope.
Delimit Scope lexer_scope with lexer.
Notation "x <- m ;; k" := (bind m (fun x => k))
  (at level 61, m at next level, right associativity) : lexer_scope.
Notation "' p <- m ;; k" := (bind m (fun x => let 'p := x in k))
  (at level 61, p pattern, m at next level, right associativity) : lexer_scope.
Notation "m ;; k" := (bind m (fun _ => k))
  (at level 61, right associativity) : lexer_scope.
Open Scope lexer_scope.

Definition get : M L := fun l => Ok l l.

Definition modify (f : L -> L) : M unit := fun l => Ok tt (f l).

Definition panic {A} (v : PanicValue) : M A := fun l => Panic v l.

(** A slice expression inside a method. *)
Definition sliceM (s : GoString) (lo hi : Z) : M GoString :=
  match slice s lo hi with
  | Some v => ret v
  | None => panic RuntimeError
  end.

(** ** The methods of [L] *)

(** [rune(EOFToken)], what [Next] returns at the end of the input. *)
Definition EOF : rune := EOFToken.

Definition New (src : GoString) (start : option StateFunc) : L :=
  {| Input := src
   ; Start := 0
   ; Position := 0
   ; StartState := start
   ; Err := None
   ; Tokens := None
   ; ErrorHandler := None
   ; Rewind := runeStack.NewRuneStack
   ; StateRecord := stateStack.NewStateStack
   ; HandlerCalls := [] |}.

(** [l.Rewind.Push(r)], [l.Rewind.Pop()], [l.Rewind.Clear()]. *)
Definition Rewind_Push (r : rune) : M unit :=
  modify (fun l => set_Rewind (runeStack.Push r (Rewind l)) l).

Definition Rewind_Pop : M rune :=
  fun l => let '(r, s) := runeStack.Pop (Rewind l) in Ok r (set_Rewind s l).

Definition Rewind_Clear : M unit :=
  modify (fun l => set_Rewind (runeStack.Clear (Rewind l)) l).

(** [l.Tokens <- tok]: a nil channel blocks for ever, a closed one
    panics, and a full one makes the sender wait, with the lexer as it
    is, until a token is received: the send returns only when the queue
    has room, [len(ch) < cap(ch)]. *)
Definition send (tok : Token.t) : M unit :=
  fun l =>
    match Tokens l with
    | None => Blocked l
    | Some c =>
        if closed c then Panic RuntimeError l
        else if Z.of_nat (length (queue c)) <? cap c
        then Ok tt (set_Tokens
                      (Some (mkChan (cap c) (queue c ++ [tok]) false)) l)
        else Blocked l
    end.

(** [tok, ok := <-l.Tokens]: [None] is [ok = false]. *)
Definition receive : M (option Token.t) :=
  fun l =>
    match Tokens l with
    | None => Blocked l
    | Some c =>
        match queue c with
        | tok :: q =>
            Ok (Some tok) (set_Tokens (Some (mkChan (cap c) q (closed c))) l)
        | [] => if closed c then Ok None l else Blocked l
        end
    end.

(** [close(l.Tokens)]. *)
Definition close : M unit :=
  fun l =>
    match Tokens l with
    | None => Panic RuntimeError l
    | Some c =>
        if closed c then Panic RuntimeError l
        else Ok tt (set_Tokens (Some (mkChan (cap c) (queue c) true)) l)
    end.

Definition Current : M GoString :=
  l <- get ;;
  sliceM (Input l) (Start l) (Position l).

Definition Emit (t : TokenType) : M unit :=
  v <- Current ;;
  l <- get ;;
  let tok := Token.mk t v (Start l) (Position l) in
  send tok ;;
  modify (fun l => set_Start (Position l) l) ;;
  Rewind_Clear.

Definition Ignore : M unit :=
  modify (fun l => set_Start (Position l) l) ;;
  Rewind_Clear.

Definition IgnoreCharacter : M unit :=
  r <- Rewind_Pop ;;
  let width := RuneLen r in
  l <- get ;;
  a <- sliceM (Input l) 0 (int64 (Position l - width)) ;;
  b <- sliceM (Input l) (Position l) (len (Input l)) ;;
  modify (set_Input (a ++ b)) ;;
  modify (fun l => set_Position (int64 (Position l - width)) l).

Definition Backup : M bool :=
  r <- Rewind_Pop ;;
  if r >? EOF then
    let size := RuneLen r in
    modify (fun l => set_Position (int64 (Position l - size)) l) ;;
    l <- get ;;
    if Position l <? Start l then
      modify (fun l => set_Position (Start l) l) ;;
      ret true
    else ret false
  else ret false.

Definition Next : M rune :=
  l <- get ;;
  str <- sliceM (Input l) (Position l) (len (Input l)) ;;
  let '(r, s) :=
    if len str =? 0 then (EOF, 0) else DecodeRuneInString str in
  modify (fun l => set_Position (int64 (Position l + s)) l) ;;
  Rewind_Push r ;;
  ret r.

Definition Peek : M rune :=
  r <- Next ;;
  Backup ;;
  ret r.

(** The body of [for i := n; i > 0; i--], run [Z.to_nat n] times. *)
Fixpoint Next_times (n : nat) (r : rune) : M rune :=
  match n with
  | O => ret r
  | S n' => r' <- Next ;; Next_times n' r'
  end.

Fixpoint Backup_times (n : nat) : M unit :=
  match n with
  | O => ret tt
  | S n' => Backup ;; Backup_times n'
  end.

Definition PeekMany (n : Z) : M rune :=
  r <- Next_times (Z.to_nat n) 0 ;;
  Backup_times (Z.to_nat n) ;;
  ret r.

Definition Take (chars : GoString) : M bool :=
  r <- Next ;;
  if Strings.ContainsRune chars r then ret true
  else Backup ;; ret false.

(** [for strings.ContainsRune(chars, r) { r = l.Next() }]. *)
Fixpoint TakeMany_loop (chars : GoString) (fuel : nat) (r : rune) : M unit :=
  match fuel with
  | O => fun l => OutOfFuel l
  | S fuel' =>
      if Strings.ContainsRune chars r
      then r' <- Next ;; TakeMany_loop chars fuel' r'
      else ret tt
  end.

(** The loop tests its condition at most once per byte left, and twice
    more: [TakeMany_total] shows the fuel is never used up. *)
Definition TakeMany (chars : GoString) : M unit :=
  r <- Next ;;
  l <- get ;;
  TakeMany_loop chars (length (Input l) + 2) r ;;
  Backup ;;
  ret tt.

(** A compiled pattern is used through [p.MatchString] only. *)
Definition Regexp := GoString -> bool.

(** The conversion [string(r)]: the encoding of [r], of [RuneError] when
    [r] is not a valid rune. *)
Definition string_of_rune (r : rune) : GoString := EncodeRune r.

Definition TakePattern (p : Regexp) : M bool :=
  r <- Next ;;
  if p (string_of_rune r) then ret true
  else Backup ;; ret false.

(** [for p.MatchString(string(r)) { r = l.Next() }].  At the end of the
    input [r] is [rune(EOFToken)] and [string(r)] is the encoding of
    [RuneError]: a pattern that matches it keeps the loop going for
    ever, so the fuel is left to the caller of the model. *)
Fixpoint TakeManyPattern_loop (p : Regexp) (fuel : nat) (r : rune) : M unit :=
  match fuel with
  | O => fun l => OutOfFuel l
  | S fuel' =>
      if p (string_of_rune r)
      then r' <- Next ;; TakeManyPattern_loop p fuel' r'
      else ret tt
  end.

Definition TakeManyPattern (p : Regexp) (fuel : nat) : M unit :=
  r <- Next ;;
  TakeManyPattern_loop p fuel r ;;
  Backup ;;
  ret tt.

(** [l.StateRecord.Push(f)] and [l.StateRecord.Pop()]. *)
Definition StateRecord_Push (f : StateFunc) : M unit :=
  modify (fun l => set_StateRecord (stateStack.Push f (StateRecord l)) l).

Definition StateRecord_Pop : M (option StateFunc) :=
  fun l =>
    let '(f, s) := stateStack.Pop (StateRecord l) in
    Ok f (set_StateRecord s l).

(** [NextToken] returns the token, or [nil], and whether the stream is
    finished. *)
Definition NextToken : M (option Token.t * bool) :=
  r <- receive ;;
  match r with
  | Some tok => ret (Some tok, false)
  | None => ret (None, true)
  end.

(** [Error]: [errors.New(e)] is kept as its message. *)
Definition Error (e : GoString) : M unit :=
  l <- get ;;
  match ErrorHandler l with
  | Some h =>
      modify (set_Err (Some e)) ;;
      modify (fun l => set_HandlerCalls (HandlerCalls l ++ [(h, e)]) l)
  | None => panic (PanicString e)
  end.

(** The caller's table of transitions: the body of each [StateFunc]. *)
Definition Program := StateFunc -> M (option StateFunc).

(** [for state != nil { state = state(l) }]. *)
Fixpoint run_loop (prog : Program) (fuel : nat) (state : option StateFunc)
  : M unit :=
  match state with
  | None => ret tt
  | Some f =>
      match fuel with
      | O => fun l => OutOfFuel l
      | S fuel' => state' <- prog f ;; run_loop prog fuel' state'
      end
  end.

Definition run (prog : Program) (fuel : nat) : M unit :=
  l <- get ;;
  run_loop prog fuel (StartState l) ;;
  close.

(** A goroutine started by a [go] statement: the call it will make. *)
Inductive Goroutine :=
| go (call : M unit) (l : L).

(** [RunLexer] returns once the goroutine is started. *)
Definition RunLexer (prog : Program) (fuel : nat) (l : L) : Goroutine :=
  let buffSize := Z.quot (len (Input l)) 2 in
  let buffSize := if buffSize <=? 0 then 1 else buffSize in
  let l := set_Tokens (Some (make_chan buffSize)) l in
  go (run prog fuel) l.

Definition RunLexerSync (prog : Program) (fuel : nat) : M unit :=
  fun l =>
    let buffSize := Z.quot (len (Input l)) 2 in
    let buffSize := if buffSize <=? 0 then 1 else buffSize in
    let l := set_Tokens (Some (make_chan buffSize)) l in
    run prog fuel l.

(** ** [Token.String] *)

Section Fmt.

(** [strconv.Quote], which the verb [%q] applies: a double-quoted Go
    string literal of its argument.  Its tables of printable characters
    are not part of this package. *)
Variable Quote : GoString -> GoString.





End Fmt.

(** ** Well-formed lexers *)

(** What the rewind stack holds: [Next] pushes the end-of-input mark or a
    rune [DecodeRuneInString] returned. *)
Definition unit_ok (r : rune) : Prop := r = EOF \/ ValidRune r = true.

(** The lexer invariant: [Start <= Position <= len(Input)], positions are
    Go [int]s, and the rewind stack holds units. *)
Record wf (l : L) : Prop := mk_wf
  { wf_start : 0 <= Start l
  ; wf_pos : Start l <= Position l
  ; wf_len : Position l <= len (Input l)
  ; wf_int : len (Input l) <= maxInt
  ; wf_rewind : Forall unit_ok (Rewind l) }.

(** ** Sample lexers *)

(** ["ab"], both bytes read. *)
Definition l_ab : L :=
  set_Rewind [98; 97] (set_Position 2 (New (list_byte_of_string "ab") None)).

(** ["12+34"] with ["12"] read and the channel made. *)
Definition l_12 : L :=
  set_Tokens (Some (make_chan 2))
    (set_Rewind [50; 49]
       (set_Position 2 (New (list_byte_of_string "12+34") None))).

(** A transition that reports ["bad"], emits a token and stops. *)
Definition prog_bad : Program :=
  fun _ => Error (list_byte_of_string "bad") ;; (Emit 1 ;; ret None).

(** ["x"], nothing read, with the channel made and the start state 0. *)
Definition l_x : L :=
  set_Tokens (Some (make_chan 1)) (New (list_byte_of_string "x") (Some O)).

(** ["x"], read to the end. *)
Definition l_end : L :=
  set_Rewind [120] (set_Position 1 (New (list_byte_of_string "x") None)).

(** ** The rewind stack as a journal *)

Definition valid_runes (rs : list rune) : Prop :=
  Forall (fun r => ValidRune r = true) rs.

(** Valid UTF-8: the encoding of a sequence of valid runes. *)
Definition valid_utf8 (s : GoString) : Prop :=
  exists rs, valid_runes rs /\ s = encode rs.

(** The lexer with the cursor at [p] and the rewind stack [rw]. *)
Definition moved (p : Z) (rw : runeStack.t) (l : L) : L :=
  set_Rewind rw (set_Position p l).

(** [journal l pre units rest k]: the input is [pre], then the encoding
    of [units] between [Start] and [Position], then the encoding of
    [rest]; the rewind stack holds [units], last read on top, under [k]
    end-of-input marks, which are there only at the end of the input. *)
Record journal (l : L) (pre : GoString) (units rest : list rune) (k : nat)
  : Prop := mk_journal
  { j_input : Input l = pre ++ encode units ++ encode rest
  ; j_start : Start l = len pre
  ; j_pos : Position l = len pre + len (encode units)
  ; j_rewind : Rewind l = repeat EOF k ++ rev units
  ; j_units : valid_runes units
  ; j_rest : valid_runes rest
  ; j_eof : k <> O -> rest = []
  ; j_int : len (Input l) <= maxInt }.

(** A lexer that has a journal. *)
Definition journalled (l : L) : Prop :=
  exists pre units rest k, journal l pre units rest k.

(** Where a run of [chars] ends: at the end of the input or before a
    rune that is not one of [chars]. *)
Definition run_end (chars : GoString) (rest : list rune) : Prop :=
  Strings.ContainsRune chars (hd EOF rest) = false.

(** ** Reachable lexers *)

(** The operations a transition may call. *)
Inductive Op :=
| OpNext
| OpBackup
| OpPeek
| OpPeekMany (n : Z)
| OpTake (chars : GoString)
| OpTakeMany (chars : GoString)
| OpTakePattern (p : Regexp)
| OpTakeManyPattern (p : Regexp) (fuel : nat)
| OpEmit (t : TokenType)
| OpIgnore
| OpIgnoreCharacter
| OpError (e : GoString)
| OpNextToken
| OpStatePush (f : StateFunc)
| OpStatePop.

Definition exec (o : Op) : M unit :=
  match o with
  | OpNext => Next ;; ret tt
  | OpBackup => Backup ;; ret tt
  | OpPeek => Peek ;; ret tt
  | OpPeekMany n => PeekMany n ;; ret tt
  | OpTake chars => Take chars ;; ret tt
  | OpTakeMany chars => TakeMany chars
  | OpTakePattern p => TakePattern p ;; ret tt
  | OpTakeManyPattern p fuel => TakeManyPattern p fuel
  | OpEmit t => Emit t
  | OpIgnore => Ignore
  | OpIgnoreCharacter => IgnoreCharacter
  | OpError e => Error e
  | OpNextToken => NextToken ;; ret tt
  | OpStatePush f => StateRecord_Push f
  | OpStatePop => StateRecord_Pop ;; ret tt
  end.

(** [IgnoreCharacter] is for the rune just read: the caller calls it with
    a rune on top of the rewind stack. *)
Definition guard (o : Op) (l : L) : Prop :=
  match o with
  | OpIgnoreCharacter => exists r s, Rewind l = r :: s /\ r <> EOF
  | _ => True
  end.

(** The lexers a run on [src] goes through: made by [New], given an error
    handler and a token channel, then driven by the operations. *)
Inductive reachable (src : GoString) : L -> Prop :=
| reach_New (start : option StateFunc) : reachable src (New src start)
| reach_handler (l : L) (h : option Handler) :
    reachable src l -> reachable src (set_ErrorHandler h l)
| reach_chan (l : L) (size : Z) :
    reachable src l -> reachable src (set_Tokens (Some (make_chan size)) l)
| reach_step (l l' : L) (o : Op) :
    reachable src l -> guard o l -> exec o l = Ok tt l' -> reachable src l'.

(** The claim of the rewind stack as first stated: the stack, bottom to
    top, is the sequence of runes of [Input[Start:Position]]. *)
Definition rewind_mirrors_lexeme (l : L) : Prop :=
  exists text,
    slice (Input l) (Start l) (Position l) = Some text /\
    rev (Rewind l) = runes text.

(** ** More sample lexers and texts *)

(** The empty input, after one [Next]. *)
Definition l_empty_next : L := moved 0 [EOF] (New [] None).

(** ["a\xff"]: an ['a'], then a byte that starts no encoding; ['a'] read. *)
Definition src_a_ff : GoString := [x61; xff].
Definition l_a_ff : L := moved 1 [97] (New src_a_ff None).

(** ["a\xff"] with both units read: the byte [0xff] read as [RuneError]. *)
Definition l_a_ff_read : L := moved 2 [RuneError; 97] (New src_a_ff None).

(** ["12\xff"], nothing read. *)
Definition src_12_ff : GoString := [x31; x32; xff].

(** ["abc\xff"], all four units read. *)
Definition src_abc_ff : GoString := [x61; x62; x63; xff].
Definition l_abc_ff : L :=
  moved 4 [RuneError; 99; 98; 97] (New src_abc_ff None).




(** ** The claims as first stated *)



(** ** Scanning without [IgnoreCharacter] *)

(** [IgnoreCharacter] is the one operation that writes to [Input]. *)
Definition keeps_input (o : Op) : bool :=
  match o with
  | OpIgnoreCharacter => false
  | _ => true
  end.

(** The lexers a run on [src] goes through when no transition calls
    [IgnoreCharacter]; the bytes of [src] are arbitrary. *)
Inductive scans (src : GoString) : L -> Prop :=
| scan_New (start : option StateFunc) : scans src (New src start)
| scan_handler (l : L) (h : option Handler) :
    scans src l -> scans src (set_ErrorHandler h l)
| scan_chan (l : L) (size : Z) :
    scans src l -> scans src (set_Tokens (Some (make_chan size)) l)
| scan_step (l l' : L) (o : Op) :
    scans src l -> keeps_input o = true -> exec o l = Ok tt l' ->
    scans src l'.

(** The operations that read, step back and look ahead, and [Ignore]. *)
Definition moves_cursor (o : Op) : bool :=
  match o with
  | OpNext | OpBackup | OpPeek | OpPeekMany _ | OpTake _ | OpTakeMany _
  | OpTakePattern _ | OpIgnore => true
  | _ => false
  end.

(** [l'] is [l] but for the cursor and the rewind stack. *)
Definition only_moved (l l' : L) : Prop :=
  exists p rw, l' = moved p rw l.

(** A step that changes the cursor and the rewind stack only, and keeps
    a well-formed lexer well formed. *)
Definition scan_step_ok (l l' : L) : Prop :=
  only_moved l l' /\ (wf l -> wf l').

(** The tokens sent and not yet received; none on a nil channel. *)
Definition queued (l : L) : list Token.t :=
  match Tokens l with
  | Some c => queue c
  | None => []
  end.

(** The spans of [q] lie between [lo] and [hi], one after the other. *)
Fixpoint spans_ordered (lo : Z) (q : list Token.t) (hi : Z) : Prop :=
  match q with
  | [] => lo <= hi
  | t :: q' =>
      lo <= Token.Start t /\ Token.Start t <= Token.End_ t /\
      spans_ordered (Token.End_ t) q' hi
  end.

(** The text of [t] is [src[t.Start:t.End]]. *)
Definition token_of (src : GoString) (t : Token.t) : Prop :=
  slice src (Token.Start t) (Token.End_ t) = Some (Token.Value t).

(** What a lexer keeps while no transition calls [IgnoreCharacter]. *)
Definition scan_inv (src : GoString) (l : L) : Prop :=
  wf l /\ Input l = src /\
  Forall (token_of src) (queued l) /\
  spans_ordered 0 (queued l) (Start l).

(** A consumer calling [NextToken] [n] times, with what each call
    returned. *)
Fixpoint NextToken_times (n : nat) : M (list (option Token.t * bool)) :=
  match n with
  | O => ret []
  | S n' =>
      x <- NextToken ;;
      xs <- NextToken_times n' ;;
      ret (x :: xs)
  end.

(** [Push] for each state of [fs] in turn, and [Pop] [n] times with what
    each call returned. *)
Definition Push_all (fs : list StateFunc) (s : stateStack.t) : stateStack.t :=
  fold_left (fun s f => stateStack.Push f s) fs s.

Fixpoint Pop_times (n : nat) (s : stateStack.t)
  : list (option StateFunc) * stateStack.t :=
  match n with
  | O => ([], s)
  | S n' =>
      let '(f, s1) := stateStack.Pop s in
      let '(fs, s2) := Pop_times n' s1 in
      (f :: fs, s2)
  end.

(** ["12+34"] after [TakeMany] of the digits and [Emit(1)]. *)
Definition l_12_emitted : L :=
  set_Rewind [] (set_Start 2 (set_Tokens
    (Some (mkChan 2 [Token.mk 1 (list_byte_of_string "12") 0 2] false))
    l_12)).

(** What a consumer gets for the tokens of [q], and the lexer once its
    channel [c] is drained. *)
Definition received (q : list Token.t) : list (option Token.t * bool) :=
  map (fun t => (Some t, false)) q.

Definition drained (c : Chan) (l : L) : L :=
  set_Tokens (Some (mkChan (cap c) [] (closed c))) l.

(** A pattern that matches the texts of one byte. *)
Definition one_byte : Regexp := fun s => len s =? 1.

(** ["ab"], nothing read. *)
Definition l_ab_new : L := New (list_byte_of_string "ab") None.

(** A transition that reads a rune, emits it as a token and stops. *)
Definition prog_one : Program := fun _ => Next ;; (Emit 1 ;; ret None).

(** * Properties *)

(** ** The decoder on samples *)

Example decode_ascii :
  DecodeRuneInString (list_byte_of_string "a+b") = (97, 1).
Proof. reflexivity. Qed.

Example decode_two : DecodeRuneInString [xc3; xa9; x41] = (0xE9, 2).
Proof. reflexivity. Qed.

Example decode_three : DecodeRuneInString [xe2; x82; xac] = (0x20AC, 3).
Proof. reflexivity. Qed.

Example decode_four : DecodeRuneInString [xf0; x9f; x98; x80] = (0x1F600, 4).
Proof. reflexivity. Qed.

Example decode_invalid : DecodeRuneInString [xff; x41] = (RuneError, 1).
Proof. reflexivity. Qed.

Example decode_truncated : DecodeRuneInString [xe2; x82] = (RuneError, 1).
Proof. reflexivity. Qed.

Example decode_surrogate : DecodeRuneInString [xed; xa0; x80] = (RuneError, 1).
Proof. reflexivity. Qed.

Example encode_samples :
  EncodeRune 0xE9 = [xc3; xa9] /\ EncodeRune 0x20AC = [xe2; x82; xac] /\
  EncodeRune 0x1F600 = [xf0; x9f; x98; x80] /\
  EncodeRune 0xD800 = [xef; xbf; xbd] /\ EncodeRune (-1) = [xef; xbf; xbd].
Proof. repeat split; reflexivity. Qed.

Example runes_sample :
  runes [x61; xc3; xa9; xff; xe2; x82; xac] = [97; 0xE9; RuneError; 0x20AC].
Proof. reflexivity. Qed.

(** * Basic facts *)

Lemma int64_id (z : Z) : - 2 ^ 63 <= z < 2 ^ 63 -> int64 z = z.
Proof.
  intros H. unfold int64.
  rewrite Z.mod_small by lia. lia.
Qed.

Lemma len_nonneg (s : GoString) : 0 <= len s.
Proof. unfold len. lia. Qed.

Lemma len_app (s t : GoString) : len (s ++ t) = len s + len t.
Proof. unfold len. rewrite length_app. lia. Qed.

Lemma len_nil_iff (s : GoString) : len s = 0 <-> s = [].
Proof.
  unfold len. split.
  - destruct s; [reflexivity | simpl; lia].
  - intros ->. reflexivity.
Qed.

Lemma slice_Some (s : GoString) (lo hi : Z) :
  0 <= lo -> lo <= hi -> hi <= len s ->
  slice s lo hi = Some (firstn (Z.to_nat (hi - lo)) (skipn (Z.to_nat lo) s)).
Proof.
  intros H0 H1 H2. unfold slice.
  destruct (0 <=? lo) eqn:E0; [| lia].
  destruct (lo <=? hi) eqn:E1; [| lia].
  destruct (hi <=? len s) eqn:E2; [| lia].
  reflexivity.
Qed.

Lemma slice_None (s : GoString) (lo hi : Z) :
  lo < 0 \/ hi < lo \/ len s < hi -> slice s lo hi = None.
Proof.
  intros H. unfold slice.
  destruct (0 <=? lo) eqn:E0; [| reflexivity].
  destruct (lo <=? hi) eqn:E1; [| reflexivity].
  destruct (hi <=? len s) eqn:E2; [| reflexivity].
  lia.
Qed.

Lemma slice_app (pre mid post : GoString) :
  slice (pre ++ mid ++ post) (len pre) (len pre + len mid) = Some mid.
Proof.
  rewrite slice_Some.
  - f_equal. unfold len.
    rewrite Nat2Z.id.
    replace (Z.to_nat (Z.of_nat (length pre) + Z.of_nat (length mid)
                       - Z.of_nat (length pre))) with (length mid) by lia.
    rewrite skipn_app, skipn_all, Nat.sub_diag. simpl.
    rewrite firstn_app, firstn_all, Nat.sub_diag. simpl.
    apply app_nil_r.
  - apply len_nonneg.
  - pose proof (len_nonneg mid). lia.
  - rewrite !len_app. pose proof (len_nonneg post). lia.
Qed.

Lemma slice_from_app (pre post : GoString) :
  slice (pre ++ post) (len pre) (len (pre ++ post)) = Some post.
Proof.
  pose proof (slice_app pre post []) as H.
  rewrite app_nil_r in H. rewrite len_app. exact H.
Qed.

Lemma slice_to_app (pre post : GoString) :
  slice (pre ++ post) 0 (len pre) = Some pre.
Proof.
  pose proof (slice_app [] pre post) as H. exact H.
Qed.

(** The setters commute with the getters; records are compared field by
    field. *)
Lemma L_eta (l : L) :
  l = mkL (Input l) (Start l) (Position l) (StartState l) (Err l)
          (Tokens l) (ErrorHandler l) (Rewind l) (StateRecord l)
          (HandlerCalls l).
Proof. destruct l; reflexivity. Qed.

Lemma set_Rewind_same (l : L) : set_Rewind (Rewind l) l = l.
Proof. destruct l; reflexivity. Qed.

Lemma set_Position_same (l : L) : set_Position (Position l) l = l.
Proof. destruct l; reflexivity. Qed.

Lemma Pop_Push (r : rune) (s : runeStack.t) :
  runeStack.Pop (runeStack.Push r s) = (r, s).
Proof. reflexivity. Qed.

Lemma RuneLen_cases (r : rune) :
  RuneLen r = -1 \/ RuneLen r = 1 \/ RuneLen r = 2 \/
  RuneLen r = 3 \/ RuneLen r = 4.
Proof.
  unfold RuneLen.
  repeat match goal with
         | |- context [if ?c then _ else _] => destruct c
         end; auto.
Qed.

Lemma RuneLen_valid (r : rune) :
  ValidRune r = true -> 1 <= RuneLen r <= 4.
Proof.
  unfold ValidRune, RuneLen, surrogateMin, surrogateMax, MaxRune,
    rune1Max, rune2Max, rune3Max.
  intros H.
  repeat match goal with
         | |- context [if ?c then _ else _] => destruct c eqn:?
         end; lia.
Qed.

Lemma ValidRune_nonneg (r : rune) : ValidRune r = true -> 0 <= r.
Proof. unfold ValidRune, surrogateMin, surrogateMax, MaxRune. lia. Qed.

Lemma unit_ok_EOF_or_nonneg (r : rune) : unit_ok r -> r = EOF \/ 0 <= r.
Proof.
  intros [H | H]; [left; exact H | right; apply ValidRune_nonneg, H].
Qed.

(** * Backup *)

Ltac unfold_M :=
  unfold bind, ret, get, modify, panic, sliceM,
    Rewind_Pop, Rewind_Push, Rewind_Clear in *.

(** What [Backup] does on any lexer, by the sign test of the source. *)
Lemma Backup_unfold (l : L) :
  Backup l =
  let r := fst (runeStack.Pop (Rewind l)) in
  let l1 := set_Rewind (snd (runeStack.Pop (Rewind l))) l in
  if r >? EOF then
    let p := int64 (Position l - RuneLen r) in
    if p <? Start l then Ok true (set_Position (Start l) l1)
    else Ok false (set_Position p l1)
  else Ok false l1.
Proof.
  unfold Backup. unfold_M.
  destruct (runeStack.Pop (Rewind l)) as [r s] eqn:E. simpl.
  destruct (r >? EOF); [| reflexivity].
  simpl. destruct (int64 (Position l - RuneLen r) <? Start l); reflexivity.
Qed.

Lemma Backup_empty (l : L) : Rewind l = [] -> Backup l = Ok false l.
Proof.
  intros E. rewrite Backup_unfold, E. simpl.
  rewrite <- E. rewrite set_Rewind_same. reflexivity.
Qed.

(** * Emit *)

Lemma Current_ok (l : L) :
  0 <= Start l -> Start l <= Position l -> Position l <= len (Input l) ->
  Current l =
  Ok (firstn (Z.to_nat (Position l - Start l))
             (skipn (Z.to_nat (Start l)) (Input l))) l.
Proof.
  intros H0 H1 H2. unfold Current. unfold_M.
  rewrite slice_Some by lia. reflexivity.
Qed.

(** C2. On every lexer with [0 <= Start <= Position <= len(Input)] whose
    channel is open: when the queue has room, [Emit t] sends exactly one
    token: its text is [Input[Start:Position]], its span is [Start] and
    [Position]; then [Start] becomes [Position] and the rewind stack is
    empty.  The token goes to the back of the queue, so with nothing
    queued before it [NextToken] reads it back.  When the queue is full
    [Emit t] waits at the send: nothing is sent, [Start] is not moved
    and the rewind stack is not cleared; once the consumer has received
    a token, [Emit t] goes through as said. *)
Theorem Emit_spec (t : TokenType) (l : L) (c : Chan) :
  0 <= Start l -> Start l <= Position l -> Position l <= len (Input l) ->
  Tokens l = Some c -> closed c = false ->
  let text := firstn (Z.to_nat (Position l - Start l))
                     (skipn (Z.to_nat (Start l)) (Input l)) in
  let tok := Token.mk t text (Start l) (Position l) in
  let after q :=
    set_Rewind [] (set_Start (Position l)
      (set_Tokens (Some (mkChan (cap c) q false)) l)) in
  slice (Input l) (Start l) (Position l) = Some text
  /\ (Z.of_nat (length (queue c)) < cap c ->
      Emit t l = Ok tt (after (queue c ++ [tok])))
  /\ (queue c = [] -> 0 < cap c ->
      (Emit t ;; NextToken) l = Ok (Some tok, false) (after []))
  /\ (cap c <= Z.of_nat (length (queue c)) -> Emit t l = Blocked l)
  /\ (forall t0 q,
        queue c = t0 :: q -> Z.of_nat (length (queue c)) <= cap c ->
        (NextToken ;; Emit t) l = Ok tt (after (q ++ [tok]))).
Proof.
  intros H0 H1 H2 T C text tok after.
  assert (S : slice (Input l) (Start l) (Position l) = Some text).
  { apply slice_Some; lia. }
  assert (E : Z.of_nat (length (queue c)) < cap c ->
              Emit t l = Ok tt (after (queue c ++ [tok]))).
  { intros R. apply Z.ltb_lt in R.
    unfold Emit. unfold bind at 1. rewrite (Current_ok _ H0 H1 H2).
    unfold_M. unfold send. simpl. rewrite T, C, R. reflexivity. }
  split; [exact S |]. split; [exact E |]. split; [| split].
  - intros Q R.
    assert (R' : Z.of_nat (length (queue c)) < cap c).
    { rewrite Q. exact R. }
    unfold bind at 1. rewrite (E R'), Q. reflexivity.
  - intros F. apply Z.ltb_ge in F.
    unfold Emit. unfold bind at 1. rewrite (Current_ok _ H0 H1 H2).
    unfold_M. unfold send. simpl. rewrite T, C, F. reflexivity.
  - intros t0 q Q F. rewrite Q in F. simpl length in F.
    assert (Rq : (Z.of_nat (length q) <? cap c) = true).
    { apply Z.ltb_lt. lia. }
    unfold bind at 1. unfold NextToken, bind at 1, receive.
    rewrite T, Q. unfold ret at 1.
    unfold Emit. unfold bind at 1.
    rewrite Current_ok by assumption.
    unfold_M. unfold send. simpl. destruct c as [cp qu cl].
    simpl in *. subst cl. rewrite Rq. reflexivity.
Qed.

(** ["12+34"] with ["12"] read: the token is ["12"], from 0 to 2. *)
Lemma Emit_spec_witness :
  (0 <= Start l_12 /\ Start l_12 <= Position l_12 /\
   Position l_12 <= len (Input l_12)) /\
  Emit 1 l_12 =
  Ok tt (set_Rewind [] (set_Start 2 (set_Tokens
    (Some (mkChan 2 [Token.mk 1 (list_byte_of_string "12") 0 2] false))
    l_12))).
Proof.
  assert (H0 : 0 <= Start l_12) by (simpl; lia).
  assert (H1 : Start l_12 <= Position l_12) by (simpl; lia).
  assert (H2 : Position l_12 <= len (Input l_12))
    by (unfold len; simpl; lia).
  assert (R : Z.of_nat (length (queue (make_chan 2))) < cap (make_chan 2))
    by (simpl; lia).
  split; [repeat split; assumption |].
  exact (proj1 (proj2
    (Emit_spec 1 l_12 (make_chan 2) H0 H1 H2 eq_refl eq_refl)) R).
Defined.

(** * Error *)

(** C4. With a handler registered, [Error e] records [e] in [Err], calls
    the handler with [e] and returns: the transition goes on and the run
    loop takes its next state.  With no handler it panics with [e]: what
    follows in the transition never runs, and [run] ends in that panic
    with the lexer, its token channel included, as it was. *)
Theorem Error_spec (e : GoString) (l : L) :
  (forall h, ErrorHandler l = Some h ->
     let l' := set_HandlerCalls (HandlerCalls l ++ [(h, e)])
                 (set_Err (Some e) l) in
     Error e l = Ok tt l' /\
     forall (prog : Program) (fuel : nat) (f : StateFunc)
            (k : M (option StateFunc)),
       prog f = (Error e ;; k) ->
       run_loop prog (S fuel) (Some f) l =
       (state <- k ;; run_loop prog fuel state) l')
  /\ (ErrorHandler l = None ->
      Error e l = Panic (PanicString e) l /\
      (forall (B : Type) (k : M B),
         (Error e ;; k) l = Panic (PanicString e) l) /\
      forall (prog : Program) (fuel : nat) (f : StateFunc)
             (k : M (option StateFunc)),
        prog f = (Error e ;; k) -> StartState l = Some f ->
        run prog (S fuel) l = Panic (PanicString e) l).
Proof.
  split.
  - intros h H l'.
    assert (E : Error e l = Ok tt l').
    { unfold Error. unfold_M. rewrite H. reflexivity. }
    split; [exact E |].
    intros prog fuel f k P. simpl. rewrite P.
    unfold bind. rewrite E. reflexivity.
  - intros H.
    assert (E : Error e l = Panic (PanicString e) l).
    { unfold Error. unfold_M. rewrite H. reflexivity. }
    split; [exact E |]. split.
    + intros B k. unfold bind. rewrite E. reflexivity.
    + intros prog fuel f k P S.
      unfold run. unfold_M. rewrite S. simpl. rewrite P.
      unfold bind. rewrite E. reflexivity.
Qed.

Lemma Error_spec_witness :
  run prog_bad 1 l_x =
    Panic (PanicString (list_byte_of_string "bad")) l_x /\
  Error (list_byte_of_string "bad") (set_ErrorHandler (Some O) l_x) =
  Ok tt (set_HandlerCalls [(O, list_byte_of_string "bad")]
           (set_Err (Some (list_byte_of_string "bad"))
              (set_ErrorHandler (Some O) l_x))).
Proof.
  split.
  - exact (proj2 (proj2 (proj2
      (Error_spec (list_byte_of_string "bad") l_x) eq_refl))
      prog_bad O O (Emit 1 ;; ret None) eq_refl eq_refl).
  - exact (proj1 (proj1
      (Error_spec (list_byte_of_string "bad")
         (set_ErrorHandler (Some O) l_x)) O eq_refl)).
Defined.

(** * RunLexer and RunLexerSync *)

Lemma buffSize_max (n : Z) :
  0 <= n ->
  (if Z.quot n 2 <=? 0 then 1 else Z.quot n 2) = Z.max 1 (n / 2).
Proof.
  intros H. rewrite Z.quot_div_nonneg by lia.
  destruct (n / 2 <=? 0) eqn:E; lia.
Qed.

(** C9. Both run modes make the token channel with capacity
    [max(1, len(Input) / 2)] before the run loop starts; for an empty
    input the capacity is 1. *)
Theorem RunLexer_capacity (prog : Program) (fuel : nat) (l : L) :
  let size := Z.max 1 (len (Input l) / 2) in
  RunLexer prog fuel l =
    go (run prog fuel) (set_Tokens (Some (make_chan size)) l)
  /\ RunLexerSync prog fuel l =
       run prog fuel (set_Tokens (Some (make_chan size)) l)
  /\ 1 <= size
  /\ forall start,
       RunLexer prog fuel (New [] start) =
         go (run prog fuel)
            (set_Tokens (Some (make_chan 1)) (New [] start)) /\
       RunLexerSync prog fuel (New [] start) =
         run prog fuel (set_Tokens (Some (make_chan 1)) (New [] start)).
Proof.
  intros size. unfold RunLexer, RunLexerSync.
  rewrite (buffSize_max _ (len_nonneg (Input l))).
  repeat split. subst size. lia.
Qed.

(** * Backup after Next at the end of the input *)

(** What [Next] does on any lexer. *)
Lemma Next_unfold (l : L) :
  Next l =
  match slice (Input l) (Position l) (len (Input l)) with
  | None => Panic RuntimeError l
  | Some str =>
      let rs := if len str =? 0 then (EOF, 0) else DecodeRuneInString str in
      Ok (fst rs)
         (set_Rewind (runeStack.Push (fst rs) (Rewind l))
            (set_Position (int64 (Position l + snd rs)) l))
  end.
Proof.
  unfold Next, bind, get, sliceM.
  destruct (slice (Input l) (Position l) (len (Input l))) as [str |];
    [| reflexivity].
  unfold ret at 1. cbv zeta.
  destruct (if len str =? 0 then (EOF, 0) else DecodeRuneInString str)
    as [r w].
  reflexivity.
Qed.

Lemma Next_at_end (l : L) :
  Position l = len (Input l) -> len (Input l) <= maxInt ->
  Next l = Ok EOF (set_Rewind (EOF :: Rewind l) l).
Proof.
  intros P I. pose proof (len_nonneg (Input l)) as N.
  rewrite Next_unfold.
  rewrite slice_Some by lia.
  replace (len (Input l) - Position l) with 0 by lia. simpl.
  rewrite Z.add_0_r, int64_id.
  - rewrite set_Position_same. reflexivity.
  - unfold maxInt in *. lia.
Qed.

(** C10. [Pop] on the empty stack returns [rune(EOFToken)], as it does
    when the mark is on top.  So on every lexer with the cursor at the
    end of the input, [Backup] after [Next] pops the mark [Next] pushed,
    leaves the cursor where it was and returns [false], as [Backup] does
    on an empty stack. *)
Theorem Backup_after_Next_at_end :
  fst (runeStack.Pop runeStack.NewRuneStack) = EOF
  /\ (forall s, fst (runeStack.Pop (runeStack.Push EOF s)) =
                fst (runeStack.Pop runeStack.NewRuneStack))
  /\ forall l, Position l = len (Input l) -> len (Input l) <= maxInt ->
       Next l = Ok EOF (set_Rewind (runeStack.Push EOF (Rewind l)) l)
       /\ (Next ;; Backup) l = Ok false l
       /\ Backup (set_Rewind [] l) = Ok false (set_Rewind [] l).
Proof.
  split; [reflexivity |]. split; [reflexivity |].
  intros l P I. split; [apply Next_at_end; assumption |]. split.
  - unfold bind at 1. rewrite (Next_at_end _ P I).
    rewrite Backup_unfold. simpl. destruct l; reflexivity.
  - rewrite Backup_unfold. reflexivity.
Qed.

(** ["x"] read to the end: [Next] then [Backup] gives the lexer back. *)
Lemma Backup_after_Next_at_end_witness :
  Position l_end = len (Input l_end) /\ len (Input l_end) <= maxInt /\
  (Next ;; Backup) l_end = Ok false l_end.
Proof.
  assert (I : len (Input l_end) <= maxInt)
    by (unfold maxInt, len; simpl; lia).
  split; [reflexivity |]. split; [exact I |].
  exact (proj1 (proj2
    (proj2 (proj2 Backup_after_Next_at_end) l_end eq_refl I))).
Defined.

(** * UTF-8: bytes and bits as arithmetic *)

Lemma Z_of_byte_range (b : byte) : 0 <= Z_of_byte b < 256.
Proof.
  unfold Z_of_byte. pose proof (Byte.to_N_bounded b). lia.
Qed.

Lemma Z_of_byte_of_Z (z : Z) : Z_of_byte (byte_of_Z z) = z mod 256.
Proof.
  unfold Z_of_byte, byte_of_Z.
  pose proof (Z.mod_pos_bound z 256 ltac:(lia)) as B.
  destruct (Byte.of_N (Z.to_N (z mod 256))) as [b |] eqn:E.
  - apply Byte.to_of_N in E. rewrite E. lia.
  - apply Byte.of_N_None_iff in E. lia.
Qed.

Lemma byte_of_Z_of_byte (b : byte) : byte_of_Z (Z_of_byte b) = b.
Proof.
  unfold byte_of_Z, Z_of_byte.
  pose proof (Byte.to_N_bounded b) as B.
  rewrite Z.mod_small by lia.
  rewrite N2Z.id, Byte.of_to_N. reflexivity.
Qed.

Lemma lor_shiftl (a b n : Z) :
  0 <= n -> 0 <= b < 2 ^ n -> Z.lor (Z.shiftl a n) b = a * 2 ^ n + b.
Proof.
  intros Hn Hb.
  rewrite <- Z.shiftl_mul_pow2 by lia.
  assert (D : Z.land (Z.shiftl a n) b = 0).
  { apply Z.bits_inj'. intros m Hm.
    rewrite Z.land_spec, Z.bits_0.
    destruct (Z.ltb_spec m n) as [L | G].
    - rewrite Z.shiftl_spec_low by lia. reflexivity.
    - destruct (Z.eq_dec b 0) as [-> | Nz].
      + rewrite Z.bits_0. apply andb_false_r.
      + rewrite (Z.bits_above_log2 b m); [apply andb_false_r | lia |].
        apply Z.lt_le_trans with n; [| lia].
        apply Z.log2_lt_pow2; lia. }
  rewrite <- Z.lxor_lor by exact D.
  symmetry. apply Z.add_nocarry_lxor. exact D.
Qed.

Lemma lor_low (x c n : Z) :
  0 <= n -> x mod 2 ^ n = 0 -> 0 <= c < 2 ^ n -> Z.lor x c = x + c.
Proof.
  intros Hn Hx Hc.
  assert (E : x = Z.shiftl (x / 2 ^ n) n).
  { rewrite Z.shiftl_mul_pow2 by lia.
    pose proof (Z.div_mod x (2 ^ n) ltac:(lia)). lia. }
  rewrite E at 1. rewrite lor_shiftl by lia.
  pose proof (Z.div_mod x (2 ^ n) ltac:(lia)). lia.
Qed.

Lemma land_low (x n : Z) : 0 <= n -> Z.land x (2 ^ n - 1) = x mod 2 ^ n.
Proof.
  intros Hn. rewrite <- Z.land_ones by lia.
  rewrite Z.ones_equiv. reflexivity.
Qed.

Lemma land_maskx (x : Z) : Z.land x maskx = x mod 64.
Proof. exact (@land_low x 6 ltac:(lia)). Qed.

Lemma land_mask2 (x : Z) : Z.land x mask2 = x mod 32.
Proof. exact (@land_low x 5 ltac:(lia)). Qed.

Lemma land_mask3 (x : Z) : Z.land x mask3 = x mod 16.
Proof. exact (@land_low x 4 ltac:(lia)). Qed.

Lemma land_mask4 (x : Z) : Z.land x mask4 = x mod 8.
Proof. exact (@land_low x 3 ltac:(lia)). Qed.

Lemma land_7 (x : Z) : Z.land x 7 = x mod 8.
Proof. exact (@land_low x 3 ltac:(lia)). Qed.

Lemma shiftl_6 (x : Z) : Z.shiftl x 6 = x * 64.
Proof. apply Z.shiftl_mul_pow2. lia. Qed.

Lemma shiftl_12 (x : Z) : Z.shiftl x 12 = x * 4096.
Proof. apply Z.shiftl_mul_pow2. lia. Qed.

Lemma shiftl_18 (x : Z) : Z.shiftl x 18 = x * 262144.
Proof. apply Z.shiftl_mul_pow2. lia. Qed.

Lemma shiftr_6 (x : Z) : Z.shiftr x 6 = x / 64.
Proof. apply Z.shiftr_div_pow2. lia. Qed.

Lemma shiftr_12 (x : Z) : Z.shiftr x 12 = x / 4096.
Proof. apply Z.shiftr_div_pow2. lia. Qed.

Lemma shiftr_18 (x : Z) : Z.shiftr x 18 = x / 262144.
Proof. apply Z.shiftr_div_pow2. lia. Qed.

(** The two-, three- and four-byte results of [DecodeRuneInString]. *)
Lemma decode2_arith (b0 b1 : Z) :
  Z.lor (Z.shiftl (Z.land b0 mask2) 6) (Z.land b1 maskx) =
  b0 mod 32 * 64 + b1 mod 64.
Proof.
  rewrite land_mask2, land_maskx.
  rewrite (@lor_shiftl _ _ 6); [reflexivity | lia |].
  pose proof (Z.mod_pos_bound b1 64 ltac:(lia)). lia.
Qed.

Lemma decode3_arith (b0 b1 b2 : Z) :
  Z.lor (Z.lor (Z.shiftl (Z.land b0 mask3) 12)
               (Z.shiftl (Z.land b1 maskx) 6))
        (Z.land b2 maskx) =
  b0 mod 16 * 4096 + b1 mod 64 * 64 + b2 mod 64.
Proof.
  rewrite land_mask3, !land_maskx, shiftl_6.
  pose proof (Z.mod_pos_bound b1 64 ltac:(lia)).
  pose proof (Z.mod_pos_bound b2 64 ltac:(lia)).
  rewrite (@lor_shiftl _ _ 12) by lia.
  rewrite (@lor_low _ _ 6); [lia | lia | | lia].
  change (2 ^ 12) with (64 * 2 ^ 6). change (2 ^ 6) with 64.
  Z.div_mod_to_equations. lia.
Qed.

Lemma decode4_arith (b0 b1 b2 b3 : Z) :
  Z.lor (Z.lor (Z.lor (Z.shiftl (Z.land b0 mask4) 18)
                      (Z.shiftl (Z.land b1 maskx) 12))
               (Z.shiftl (Z.land b2 maskx) 6))
        (Z.land b3 maskx) =
  b0 mod 8 * 262144 + b1 mod 64 * 4096 + b2 mod 64 * 64 + b3 mod 64.
Proof.
  rewrite land_mask4, !land_maskx, shiftl_6, shiftl_12.
  pose proof (Z.mod_pos_bound b1 64 ltac:(lia)).
  pose proof (Z.mod_pos_bound b2 64 ltac:(lia)).
  pose proof (Z.mod_pos_bound b3 64 ltac:(lia)).
  rewrite (@lor_shiftl _ _ 18) by lia.
  rewrite (@lor_low (b0 mod 8 * 2 ^ 18 + b1 mod 64 * 4096)
                     (b2 mod 64 * 64) 12); [| lia | | lia].
  - rewrite (@lor_low _ _ 6); [lia | lia | | lia].
    change (2 ^ 18) with (4096 * 2 ^ 6). change (2 ^ 6) with 64.
    Z.div_mod_to_equations. lia.
  - change (2 ^ 18) with (64 * 2 ^ 12). change (2 ^ 12) with 4096.
    Z.div_mod_to_equations. lia.
Qed.

Ltac eval_bool c :=
  let v := eval vm_compute in c in
  lazymatch v with
  | true => change c with true
  | false => change c with false
  end.

Ltac eval_num c :=
  let v := eval vm_compute in c in
  lazymatch v with
  | Z0 => change c with v
  | Zpos _ => change c with v
  end.

(** Evaluate what the tables decide once the first byte's entry is known. *)
Ltac reduce_tbl :=
  repeat first
    [ match goal with
      | |- context [as_ <=? ?x] => eval_bool (as_ <=? x)
      | |- context [Z.testbit ?x 0] => eval_bool (Z.testbit x 0)
      | |- context [Z.land ?x 7] => eval_num (Z.land x 7)
      | |- context [acceptRanges ?i] =>
          let v := eval vm_compute in (acceptRanges i) in
          lazymatch v with
          | (?a, ?b) => change (acceptRanges i) with (a, b)
          end
      | |- context [Zpos ?a <=? Zpos ?b] => eval_bool (Zpos a <=? Zpos b)
      end
    | progress cbn [fst snd]
    | progress cbv beta iota ].

Lemma first_cases (b : Z) :
  0 <= b < 256 ->
  (b < 0x80 /\ first b = as_) \/
  ((0x80 <= b < 0xC2 \/ 0xF4 < b) /\ first b = xx) \/
  (0xC2 <= b < 0xE0 /\ first b = s1) \/
  (b = 0xE0 /\ first b = s2) \/
  ((0xE0 < b < 0xED \/ 0xED < b < 0xF0) /\ first b = s3) \/
  (b = 0xED /\ first b = s4) \/
  (b = 0xF0 /\ first b = s5) \/
  (0xF0 < b < 0xF4 /\ first b = s6) \/
  (b = 0xF4 /\ first b = s7).
Proof.
  intros H. unfold first.
  repeat match goal with
         | |- context [if ?c then _ else _] => destruct c eqn:?
         end;
  intuition lia.
Qed.

Lemma mask_keep (b : Z) :
  Z.lor (Z.land b (Z.lnot 0)) (Z.land RuneError 0) = b.
Proof.
  change (Z.lnot 0) with (-1).
  rewrite Z.land_m1_r, Z.land_0_r, Z.lor_0_r. reflexivity.
Qed.

Lemma mask_error (b : Z) :
  Z.lor (Z.land b (Z.lnot (-1))) (Z.land RuneError (-1)) = RuneError.
Proof.
  change (Z.lnot (-1)) with 0.
  rewrite Z.land_0_r, Z.land_m1_r. reflexivity.
Qed.

Lemma RuneLen_1 (r : rune) : 0 <= r <= 0x7F -> RuneLen r = 1.
Proof.
  intros H. unfold RuneLen, rune1Max.
  destruct (r <? 0) eqn:?; [lia |].
  destruct (r <=? 127) eqn:?; [reflexivity | lia].
Qed.

Lemma RuneLen_2 (r : rune) : 0x80 <= r <= 0x7FF -> RuneLen r = 2.
Proof.
  intros H. unfold RuneLen, rune1Max, rune2Max.
  destruct (r <? 0) eqn:?; [lia |].
  destruct (r <=? 127) eqn:?; [lia |].
  destruct (r <=? 2047) eqn:?; [reflexivity | lia].
Qed.

Lemma RuneLen_3 (r : rune) :
  0x800 <= r <= 0xFFFF -> r < 0xD800 \/ 0xDFFF < r -> RuneLen r = 3.
Proof.
  intros H S. unfold RuneLen, rune1Max, rune2Max, rune3Max,
    surrogateMin, surrogateMax.
  destruct (r <? 0) eqn:?; [lia |].
  destruct (r <=? 127) eqn:?; [lia |].
  destruct (r <=? 2047) eqn:?; [lia |].
  destruct ((55296 <=? r) && (r <=? 57343)) eqn:?; [lia |].
  destruct (r <=? 65535) eqn:?; [reflexivity | lia].
Qed.

Lemma RuneLen_4 (r : rune) : 0x10000 <= r <= 0x10FFFF -> RuneLen r = 4.
Proof.
  intros H. unfold RuneLen, rune1Max, rune2Max, rune3Max, MaxRune,
    surrogateMin, surrogateMax.
  destruct (r <? 0) eqn:?; [lia |].
  destruct (r <=? 127) eqn:?; [lia |].
  destruct (r <=? 2047) eqn:?; [lia |].
  destruct ((55296 <=? r) && (r <=? 57343)) eqn:?; [lia |].
  destruct (r <=? 65535) eqn:?; [lia |].
  destruct (r <=? 1114111) eqn:?; [reflexivity | lia].
Qed.

Lemma ValidRune_range (r : rune) :
  0 <= r < 0xD800 \/ 0xDFFF < r <= 0x10FFFF -> ValidRune r = true.
Proof.
  unfold ValidRune, surrogateMin, surrogateMax, MaxRune. lia.
Qed.

Lemma Decode_nil : DecodeRuneInString [] = (RuneError, 0).
Proof. reflexivity. Qed.

Lemma Decode_props (s : GoString) :
  s <> [] ->
  let r := fst (DecodeRuneInString s) in
  let w := snd (DecodeRuneInString s) in
  ValidRune r = true /\ 1 <= w <= len s /\
  (w = RuneLen r \/ (r = RuneError /\ w = 1)).
Proof.
  intros Hs. cbv zeta.
  assert (Hn : 1 <= len s).
  { pose proof (len_nonneg s). pose proof (len_nil_iff s).
    destruct (Z.eq_dec (len s) 0); [tauto | lia]. }
  unfold DecodeRuneInString. cbv zeta.
  destruct (len s <? 1) eqn:E; [lia |]. clear E.
  pose proof (Z_of_byte_range (nth 0 s x00)) as R0.
  pose proof (Z_of_byte_range (nth 1 s x00)) as R1.
  pose proof (Z_of_byte_range (nth 2 s x00)) as R2.
  pose proof (Z_of_byte_range (nth 3 s x00)) as R3.
  fold (at_ s 0) in R0. fold (at_ s 1) in R1.
  fold (at_ s 2) in R2. fold (at_ s 3) in R3.
  set (n := len s) in *. 
  set (b0 := at_ s 0) in *. set (b1 := at_ s 1) in *.
  set (b2 := at_ s 2) in *. set (b3 := at_ s 3) in *.
  clearbody n b0 b1 b2 b3.
  destruct (first_cases _ R0) as
    [[C F] | [[C F] | [[C F] | [[C F] | [[C F] | [[C F] | [[C F] |
     [[C F] | [C F]]]]]]]]];
    rewrite F; reduce_tbl.
  all: try rewrite decode2_arith.
  all: try rewrite decode3_arith.
  all: try rewrite decode4_arith.
  all: repeat match goal with
         | |- context [if ?c then _ else _] => destruct c eqn:?
         end; cbn [fst snd].
  all: try rewrite mask_keep; try rewrite mask_error.
  all: try (split; [reflexivity | split; [lia | right; split; reflexivity]]).
  all: unfold locb, hicb in *.
  all: (split; [apply ValidRune_range; Z.div_mod_to_equations; lia |]).
  all: (split; [lia | left; symmetry]).
  all: first [ apply RuneLen_1; lia
             | apply RuneLen_2; Z.div_mod_to_equations; lia
             | apply RuneLen_3; Z.div_mod_to_equations; lia
             | apply RuneLen_4; Z.div_mod_to_equations; lia ].
Qed.

(** The bytes [EncodeRune] writes, as arithmetic. *)
Lemma enc_cont (x : Z) :
  Z_of_byte (byte_of_Z
    (Z.lor tx (Z.land (Z_of_byte (byte_of_Z x)) maskx))) =
  128 + x mod 64.
Proof.
  rewrite land_maskx, !Z_of_byte_of_Z.
  pose proof (Z.mod_pos_bound (x mod 256) 64 ltac:(lia)).
  rewrite (@lor_low _ _ 6); [| lia | reflexivity | lia].
  unfold tx. Z.div_mod_to_equations. lia.
Qed.

Lemma enc_lead (t x n : Z) :
  0 <= n <= 8 -> t mod 2 ^ n = 0 -> 0 <= t < 256 -> 0 <= x < 2 ^ n ->
  t + x < 256 ->
  Z_of_byte (byte_of_Z (Z.lor t (Z_of_byte (byte_of_Z x)))) = t + x.
Proof.
  intros Hn Ht Rt Hx Hs.
  assert (2 ^ n <= 2 ^ 8) by (apply Z.pow_le_mono_r; lia).
  rewrite !Z_of_byte_of_Z.
  rewrite (Z.mod_small x) by lia.
  rewrite (@lor_low _ _ n) by lia.
  apply Z.mod_small. lia.
Qed.

Lemma Z_of_byte_of_Z_small (z : Z) :
  0 <= z < 256 -> Z_of_byte (byte_of_Z z) = z.
Proof. intros H. rewrite Z_of_byte_of_Z. apply Z.mod_small. exact H. Qed.

Lemma len_cons (b : byte) (s : GoString) : len (b :: s) = 1 + len s.
Proof. unfold len. simpl length. lia. Qed.

Lemma at_0 (b : byte) (s : GoString) : at_ (b :: s) 0 = Z_of_byte b.
Proof. reflexivity. Qed.

Lemma at_S (b : byte) (s : GoString) (i : nat) :
  at_ (b :: s) (S i) = at_ s i.
Proof. reflexivity. Qed.

Ltac decode_open :=
  unfold DecodeRuneInString; cbv zeta;
  rewrite ?at_S, ?at_0, ?len_cons.

Ltac decode_cases :=
  match goal with
  | |- context [first ?b] =>
      let R := fresh "R" in
      assert (R : 0 <= b < 256) by (Z.div_mod_to_equations; lia);
      destruct (first_cases _ R) as
        [[? F] | [[? F] | [[? F] | [[? F] | [[? F] | [[? F] | [[? F] |
         [[? F] | [? F]]]]]]]]];
      try (exfalso; Z.div_mod_to_equations; lia); rewrite F; reduce_tbl
  end;
  rewrite ?decode2_arith, ?decode3_arith, ?decode4_arith,
    ?mask_keep, ?mask_error;
  unfold locb, hicb;
  repeat match goal with
         | |- context [if ?c then _ else _] => destruct c eqn:?
         end;
  try (exfalso; Z.div_mod_to_equations; lia).

Lemma enc_lead2 (r : rune) :
  0 <= r <= 0x7FF ->
  Z_of_byte (byte_of_Z (Z.lor t2 (Z_of_byte (byte_of_Z (Z.shiftr r 6))))) =
  192 + r / 64.
Proof.
  intros H. rewrite shiftr_6.
  apply (@enc_lead t2 (r / 64) 6); unfold t2;
    try reflexivity; Z.div_mod_to_equations; lia.
Qed.

Lemma enc_lead3 (r : rune) :
  0 <= r <= 0xFFFF ->
  Z_of_byte (byte_of_Z (Z.lor t3 (Z_of_byte (byte_of_Z (Z.shiftr r 12))))) =
  224 + r / 4096.
Proof.
  intros H. rewrite shiftr_12.
  apply (@enc_lead t3 (r / 4096) 5); unfold t3;
    try reflexivity; Z.div_mod_to_equations; lia.
Qed.

Lemma enc_lead4 (r : rune) :
  0 <= r <= 0x10FFFF ->
  Z_of_byte (byte_of_Z (Z.lor t4 (Z_of_byte (byte_of_Z (Z.shiftr r 18))))) =
  240 + r / 262144.
Proof.
  intros H. rewrite shiftr_18.
  apply (@enc_lead t4 (r / 262144) 4); unfold t4;
    try reflexivity; Z.div_mod_to_equations; lia.
Qed.

Lemma Decode_Encode (r : rune) (rest : GoString) :
  ValidRune r = true ->
  DecodeRuneInString (EncodeRune r ++ rest) = (r, RuneLen r) /\
  len (EncodeRune r) = RuneLen r.
Proof.
  intros V.
  assert (C : 0 <= r <= 0x7F \/ 0x80 <= r <= 0x7FF \/
              (0x800 <= r <= 0xFFFF /\ (r < 0xD800 \/ 0xDFFF < r)) \/
              0x10000 <= r <= 0x10FFFF).
  { unfold ValidRune, surrogateMin, surrogateMax, MaxRune in V. lia. }
  pose proof (len_nonneg rest) as Hrest.
  unfold EncodeRune. cbv zeta.
  rewrite (Z.mod_small r (2 ^ 32)) by lia.
  unfold rune1Max, rune2Max, rune3Max, MaxRune, surrogateMin, surrogateMax.
  destruct C as [C | [C | [[C S] | C]]].
  - rewrite (RuneLen_1 _ C).
    destruct (r <=? 127) eqn:E1; [| lia].
    split; [| reflexivity]. cbn [app].
    decode_open. rewrite (@Z_of_byte_of_Z_small r) by lia.
    decode_cases. reflexivity.
  - rewrite (RuneLen_2 _ C).
    destruct (r <=? 127) eqn:E1; [lia |].
    destruct (r <=? 2047) eqn:E2; [| lia].
    split; [| reflexivity]. cbn [app].
    decode_open. rewrite !enc_cont, enc_lead2 by lia.
    decode_cases.
    f_equal. Z.div_mod_to_equations. lia.
  - rewrite (RuneLen_3 _ C S).
    destruct (r <=? 127) eqn:E1; [lia |].
    destruct (r <=? 2047) eqn:E2; [lia |].
    destruct ((1114111 <? r) || (55296 <=? r) && (r <=? 57343)) eqn:E3;
      [lia |].
    destruct (r <=? 65535) eqn:E4; [| lia].
    split; [| reflexivity]. cbn [app].
    decode_open. rewrite !enc_cont, enc_lead3 by lia.
    rewrite shiftr_6.
    decode_cases.
    all: f_equal; Z.div_mod_to_equations; lia.
  - rewrite (RuneLen_4 _ C).
    destruct (r <=? 127) eqn:E1; [lia |].
    destruct (r <=? 2047) eqn:E2; [lia |].
    destruct ((1114111 <? r) || (55296 <=? r) && (r <=? 57343)) eqn:E3;
      [lia |].
    destruct (r <=? 65535) eqn:E4; [lia |].
    split; [| reflexivity]. cbn [app].
    decode_open. rewrite !enc_cont, enc_lead4 by lia.
    rewrite shiftr_6, shiftr_12.
    decode_cases.
    all: f_equal; Z.div_mod_to_equations; lia.
Qed.

(** * The rewind stack as the journal of the lexeme in progress *)

Lemma encode_app (a b : list rune) : encode (a ++ b) = encode a ++ encode b.
Proof. unfold encode. apply flat_map_app. Qed.

Lemma encode_cons (r : rune) (rs : list rune) :
  encode (r :: rs) = EncodeRune r ++ encode rs.
Proof. reflexivity. Qed.

Lemma encode_snoc (rs : list rune) (r : rune) :
  encode (rs ++ [r]) = encode rs ++ EncodeRune r.
Proof.
  rewrite encode_app. unfold encode at 2. simpl.
  rewrite app_nil_r. reflexivity.
Qed.

Lemma len_EncodeRune (r : rune) :
  ValidRune r = true -> len (EncodeRune r) = RuneLen r.
Proof. intros V. exact (proj2 (Decode_Encode r [] V)). Qed.

Lemma valid_runes_app (a b : list rune) :
  valid_runes (a ++ b) <-> valid_runes a /\ valid_runes b.
Proof. unfold valid_runes. apply Forall_app. Qed.

Lemma moved_same (l : L) : moved (Position l) (Rewind l) l = l.
Proof. destruct l; reflexivity. Qed.

Lemma moved_eq (p : Z) (rw : runeStack.t) (l : L) :
  p = Position l -> rw = Rewind l -> moved p rw l = l.
Proof. intros -> ->. apply moved_same. Qed.

Lemma moved_moved (p q : Z) (rw rw' : runeStack.t) (l : L) :
  moved q rw' (moved p rw l) = moved q rw' l.
Proof. reflexivity. Qed.

Lemma journal_moved (l : L) (p : Z) (rw : runeStack.t)
      (pre : GoString) (units rest : list rune) (k : nat) :
  Input l = pre ++ encode units ++ encode rest ->
  Start l = len pre ->
  p = len pre + len (encode units) ->
  rw = repeat EOF k ++ rev units ->
  valid_runes units -> valid_runes rest ->
  (k <> O -> rest = []) ->
  len (Input l) <= maxInt ->
  journal (moved p rw l) pre units rest k.
Proof. intros. constructor; assumption. Qed.

(** A journal lexer is well formed. *)
Lemma journal_wf (l : L) pre units rest k :
  journal l pre units rest k -> wf l.
Proof.
  intros J. destruct J as [Hi Hs Hp Hr Hu Hre Hk Hint].
  pose proof (len_nonneg pre). pose proof (len_nonneg (encode units)).
  pose proof (len_nonneg (encode rest)).
  constructor; try lia.
  - rewrite Hi, !len_app. lia.
  - rewrite Hr. apply Forall_app. split.
    + apply Forall_forall. intros x Hx.
      apply repeat_spec in Hx. left. exact Hx.
    + apply Forall_rev. unfold valid_runes in Hu.
      eapply Forall_impl; [| exact Hu]. intros a Ha. right. exact Ha.
Qed.

Lemma journal_cursor (l : L) pre units rest k :
  journal l pre units rest k ->
  slice (Input l) (Position l) (len (Input l)) = Some (encode rest).
Proof.
  intros J. destruct J as [Hi Hs Hp Hr Hu Hre Hk Hint].
  rewrite Hi, Hp, app_assoc, <- len_app.
  apply slice_from_app.
Qed.

Lemma journal_Current (l : L) pre units rest k :
  journal l pre units rest k -> Current l = Ok (encode units) l.
Proof.
  intros J. destruct J as [Hi Hs Hp Hr Hu Hre Hk Hint].
  unfold Current, bind, get, sliceM.
  rewrite Hi, Hs, Hp, slice_app. reflexivity.
Qed.

(** [Next] where a rune is left: it is read and journalled. *)
Lemma Next_journal_cons (l : L) pre units r rest k :
  journal l pre units (r :: rest) k ->
  Next l = Ok r (moved (Position l + RuneLen r) (r :: Rewind l) l) /\
  journal (moved (Position l + RuneLen r) (r :: Rewind l) l)
          pre (units ++ [r]) rest O.
Proof.
  intros J. pose proof (journal_cursor _ _ _ _ _ J) as C.
  destruct J as [Hi Hs Hp Hr Hu Hre Hk Hint].
  assert (V : ValidRune r = true) by (inversion Hre; assumption).
  assert (Vr : valid_runes rest) by (inversion Hre; assumption).
  assert (K : k = O).
  { destruct k; [reflexivity |]. discriminate Hk. discriminate. }
  subst k.
  pose proof (RuneLen_valid r V) as B.
  pose proof (len_EncodeRune r V) as LE.
  pose proof (len_nonneg pre). pose proof (len_nonneg (encode units)).
  pose proof (len_nonneg (encode rest)).
  assert (LI : len (Input l) =
               len pre + len (encode units) + RuneLen r + len (encode rest)).
  { rewrite Hi, encode_cons, !len_app. lia. }
  split.
  - rewrite Next_unfold, C, encode_cons.
    rewrite len_app, LE.
    destruct (RuneLen r + len (encode rest) =? 0) eqn:Z0; [lia |].
    rewrite (proj1 (Decode_Encode r (encode rest) V)).
    cbn [fst snd]. rewrite int64_id by (unfold maxInt in *; lia).
    reflexivity.
  - apply journal_moved; try assumption.
    + rewrite Hi, encode_snoc, encode_cons, <- !app_assoc. reflexivity.
    + rewrite Hp, encode_snoc, len_app, LE. lia.
    + rewrite Hr, rev_app_distr. reflexivity.
    + apply valid_runes_app. split; [assumption |].
      constructor; [assumption | constructor].
    + intros F. contradiction.
Qed.

(** [Next] at the end of the input: the mark is pushed, nothing is read. *)
Lemma Next_journal_nil (l : L) pre units k :
  journal l pre units [] k ->
  Next l = Ok EOF (moved (Position l) (EOF :: Rewind l) l) /\
  journal (moved (Position l) (EOF :: Rewind l) l) pre units [] (S k).
Proof.
  intros J. pose proof (journal_wf _ _ _ _ _ J) as W.
  destruct J as [Hi Hs Hp Hr Hu Hre Hk Hint].
  assert (P : Position l = len (Input l)).
  { rewrite Hi, Hp, !len_app. change (len (encode [])) with 0. lia. }
  split.
  - rewrite (Next_at_end _ P Hint). destruct l; reflexivity.
  - apply journal_moved; try assumption.
    + rewrite Hr. reflexivity.
    + reflexivity.
Qed.

(** [Backup] with a mark on top pops it and stays. *)
Lemma Backup_journal_mark (l : L) pre units rest k :
  journal l pre units rest (S k) ->
  Backup l = Ok false (moved (Position l) (repeat EOF k ++ rev units) l) /\
  journal (moved (Position l) (repeat EOF k ++ rev units) l)
          pre units rest k.
Proof.
  intros J. destruct J as [Hi Hs Hp Hr Hu Hre Hk Hint].
  split.
  - rewrite Backup_unfold, Hr. simpl. destruct l; reflexivity.
  - apply journal_moved; try assumption; try reflexivity.
    intros _. apply Hk. discriminate.
Qed.

(** [Backup] with a rune on top steps back over its encoding. *)
Lemma Backup_journal_unit (l : L) pre units r rest :
  journal l pre (units ++ [r]) rest O ->
  Backup l = Ok false (moved (Position l - RuneLen r) (rev units) l) /\
  journal (moved (Position l - RuneLen r) (rev units) l)
          pre units (r :: rest) O.
Proof.
  intros J. destruct J as [Hi Hs Hp Hr Hu Hre Hk Hint].
  apply valid_runes_app in Hu. destruct Hu as [Hu Hv].
  assert (V : ValidRune r = true) by (inversion Hv; assumption).
  pose proof (RuneLen_valid r V) as B.
  pose proof (ValidRune_nonneg r V) as N.
  pose proof (len_EncodeRune r V) as LE.
  pose proof (len_nonneg pre). pose proof (len_nonneg (encode units)).
  assert (LU : len (encode (units ++ [r])) = len (encode units) + RuneLen r).
  { rewrite encode_snoc, len_app, LE. reflexivity. }
  assert (LI : Position l <= len (Input l)).
  { rewrite Hi, Hp, !len_app. pose proof (len_nonneg (encode rest)). lia. }
  split.
  - rewrite Backup_unfold, Hr, rev_app_distr. simpl.
    destruct (r >? EOF) eqn:G; [| unfold EOF, EOFToken in G; lia].
    rewrite int64_id by (unfold maxInt in *; lia).
    destruct (Position l - RuneLen r <? Start l) eqn:Lt; [lia |].
    reflexivity.
  - apply journal_moved; try assumption; try reflexivity.
    + rewrite Hi, encode_snoc, encode_cons, <- !app_assoc. reflexivity.
    + lia.
    + constructor; assumption.
    + intros F. contradiction.
Qed.

(** [Backup] with nothing journalled changes nothing. *)
Lemma Backup_journal_empty (l : L) pre rest :
  journal l pre [] rest O -> Backup l = Ok false l.
Proof.
  intros J. apply Backup_empty.
  rewrite (j_rewind _ _ _ _ _ J). reflexivity.
Qed.

(** The journal only looks at the input, the two positions and the
    rewind stack. *)
Lemma journal_fields (l l' : L) pre units rest k :
  journal l pre units rest k ->
  Input l' = Input l -> Start l' = Start l ->
  Position l' = Position l -> Rewind l' = Rewind l ->
  journal l' pre units rest k.
Proof.
  intros [Hi Hs Hp Hr Hu Hre Hk Hint] E1 E2 E3 E4.
  constructor; try assumption; congruence.
Qed.

(** [Next] always succeeds on a journal lexer, and [Backup] right after
    it gives the lexer back. *)
Lemma Next_Backup_journal (l : L) pre units rest k :
  journal l pre units rest k ->
  exists l1 units1 rest1 k1,
    Next l = Ok (hd EOF rest) l1 /\
    journal l1 pre units1 rest1 k1 /\
    Backup l1 = Ok false l.
Proof.
  intros J. destruct rest as [| r rest].
  - destruct (Next_journal_nil _ _ _ _ J) as [N J1].
    destruct (Backup_journal_mark _ _ _ _ _ J1) as [B _].
    eexists _, _, _, _. split; [exact N |]. split; [exact J1 |].
    rewrite B. f_equal. rewrite moved_moved.
    apply moved_eq; [reflexivity | symmetry; exact (j_rewind _ _ _ _ _ J)].
  - destruct (Next_journal_cons _ _ _ _ _ _ J) as [N J1].
    destruct (Backup_journal_unit _ _ _ _ _ J1) as [B _].
    assert (K : k = O).
    { destruct k; [reflexivity |].
      pose proof (j_eof _ _ _ _ _ J ltac:(discriminate)). discriminate. }
    subst k.
    eexists _, _, _, _. split; [exact N |]. split; [exact J1 |].
    rewrite B. f_equal. rewrite moved_moved.
    apply moved_eq; [simpl; lia | symmetry; exact (j_rewind _ _ _ _ _ J)].
Qed.

(** On a journal lexer [Peek] returns the next rune, or the mark at the
    end of the input, and leaves the lexer as it was. *)
Lemma Peek_journal (l : L) pre units rest k :
  journal l pre units rest k -> Peek l = Ok (hd EOF rest) l.
Proof.
  intros J.
  destruct (Next_Backup_journal _ _ _ _ _ J) as (l1 & u1 & r1 & k1 & N & _ & B).
  unfold Peek, bind. rewrite N, B. reflexivity.
Qed.

Lemma bind_assoc {A B C} (m : M A) (f : A -> M B) (g : B -> M C) (l : L) :
  (x <- (y <- m ;; f y) ;; g x) l = (y <- m ;; x <- f y ;; g x) l.
Proof. unfold bind. destruct (m l); reflexivity. Qed.

Lemma bind_ext {A B} (m : M A) (f g : A -> M B) (l : L) :
  (forall a l', f a l' = g a l') -> bind m f l = bind m g l.
Proof.
  intros E. unfold bind. destruct (m l); try reflexivity. apply E.
Qed.

Lemma Backup_times_snoc (n : nat) (l : L) :
  Backup_times (S n) l = (Backup_times n ;; Backup ;; ret tt) l.
Proof.
  revert l. induction n as [| n IH]; intros l.
  - reflexivity.
  - change (Backup_times (S (S n))) with (Backup ;; Backup_times (S n)).
    rewrite (bind_ext Backup _ (fun _ => Backup_times n ;; Backup ;; ret tt))
      by (intros _ l'; apply IH).
    rewrite <- bind_assoc. reflexivity.
Qed.

Lemma Next_times_journal (n : nat) :
  forall (l : L) pre units rest k (r0 : rune),
    journal l pre units rest k ->
    exists r l1, Next_times n r0 l = Ok r l1 /\ Backup_times n l1 = Ok tt l.
Proof.
  induction n as [| n IH]; intros l pre units rest k r0 J.
  - exists r0, l. split; reflexivity.
  - destruct (Next_Backup_journal _ _ _ _ _ J)
      as (l1 & u1 & r1 & k1 & N & J1 & B).
    destruct (IH l1 pre u1 r1 k1 (hd EOF rest) J1) as (r & l2 & N2 & B2).
    exists r, l2. split.
    + simpl. unfold bind. rewrite N. exact N2.
    + rewrite Backup_times_snoc. unfold bind. rewrite B2, B. reflexivity.
Qed.

(** [PeekMany] leaves a journal lexer as it was. *)
Lemma PeekMany_journal (n : Z) (l : L) pre units rest k :
  journal l pre units rest k -> exists r, PeekMany n l = Ok r l.
Proof.
  intros J.
  destruct (Next_times_journal (Z.to_nat n) _ _ _ _ _ 0 J) as (r & l1 & N & B).
  exists r. unfold PeekMany, bind. rewrite N, B. reflexivity.
Qed.

(** [Take] reads the next rune when it is one of [chars], and otherwise
    leaves the lexer as it was. *)
Lemma Take_journal (chars : GoString) (l : L) pre units rest k :
  journal l pre units rest k ->
  exists l1 units1 rest1 k1,
    Next l = Ok (hd EOF rest) l1 /\
    journal l1 pre units1 rest1 k1 /\
    Take chars l =
    if Strings.ContainsRune chars (hd EOF rest) then Ok true l1
    else Ok false l.
Proof.
  intros J.
  destruct (Next_Backup_journal _ _ _ _ _ J)
      as (l1 & u1 & r1 & k1 & N & J1 & B).
  exists l1, u1, r1, k1. split; [exact N |]. split; [exact J1 |].
  unfold Take, bind. rewrite N.
  destruct (Strings.ContainsRune chars (hd EOF rest)); [reflexivity |].
  rewrite B. reflexivity.
Qed.

Lemma ContainsRune_EOF (chars : GoString) :
  Strings.ContainsRune chars EOF = false.
Proof. reflexivity. Qed.

(** The loop of [TakeMany], entered after [r] was read: it reads the
    runes of [taken], then one [Next] more. *)
Lemma TakeMany_loop_journal (chars : GoString) (taken : list rune) :
  forall (fuel : nat) (r : rune) (l : L) pre units rest k,
    journal l pre units (taken ++ rest) k ->
    Forall (fun x => Strings.ContainsRune chars x = true) taken ->
    run_end chars rest ->
    Strings.ContainsRune chars r = true ->
    (length taken + 2 <= fuel)%nat ->
    exists l1 units1 rest1 k1,
      TakeMany_loop chars fuel r l = Ok tt l1 /\
      journal l1 pre units1 rest1 k1 /\
      Backup l1 =
      Ok false (moved (Position l + len (encode taken))
                      (repeat EOF k ++ rev (units ++ taken)) l).
Proof.
  induction taken as [| t taken IH];
    intros fuel r l pre units rest k J F E R Hf.
  - simpl app in J.
    destruct (Next_Backup_journal _ _ _ _ _ J)
      as (l1 & u1 & r1 & k1 & N & J1 & B).
    exists l1, u1, r1, k1.
    destruct fuel as [| [| fuel]]; [simpl in Hf; lia | simpl in Hf; lia |].
    split; [| split; [exact J1 |]].
    + simpl. rewrite R. unfold bind. rewrite N.
      unfold run_end in E. rewrite E. reflexivity.
    + rewrite B. f_equal. symmetry. change (len (encode [])) with 0.
      apply moved_eq; [lia |].
      rewrite app_nil_r. symmetry. exact (j_rewind _ _ _ _ _ J).
  - inversion F as [| x xs Ft Fts]; subst.
    simpl app in J.
    destruct (Next_journal_cons _ _ _ _ _ _ J) as [N J1].
    destruct fuel as [| fuel]; [simpl in Hf; lia |].
    assert (Hf' : (length taken + 2 <= fuel)%nat) by (simpl in Hf; lia).
    destruct (IH fuel t _ pre (units ++ [t]) rest O J1 Fts E Ft Hf')
      as (l1 & u1 & r1 & k1 & T & J2 & B).
    exists l1, u1, r1, k1. split; [| split; [exact J2 |]].
    + simpl. rewrite R. unfold bind. rewrite N. exact T.
    + rewrite B. rewrite moved_moved. f_equal.
      assert (K : k = O).
      { destruct k; [reflexivity |].
        pose proof (j_eof _ _ _ _ _ J ltac:(discriminate)). discriminate. }
      subst k.
      assert (V : ValidRune t = true).
      { pose proof (j_rest _ _ _ _ _ J) as Vr. inversion Vr; assumption. }
      f_equal.
      * rewrite encode_cons, len_app, (len_EncodeRune t V). simpl. lia.
      * rewrite <- app_assoc. reflexivity.
Qed.

Lemma length_encode_le (rs : list rune) :
  valid_runes rs -> (length rs <= length (encode rs))%nat.
Proof.
  induction 1 as [| r rs V _ IH]; [simpl; lia |].
  rewrite encode_cons, length_app. simpl length.
  pose proof (len_EncodeRune r V) as LE.
  pose proof (RuneLen_valid r V). unfold len in LE. lia.
Qed.

(** On a journal lexer [TakeMany] returns: it reads the longest run of
    runes of [chars] and stops before the first rune that is not one of
    them, or at the end of the input. *)
Lemma TakeMany_journal (chars : GoString) (taken : list rune)
      (l : L) pre units rest k :
  journal l pre units (taken ++ rest) k ->
  Forall (fun x => Strings.ContainsRune chars x = true) taken ->
  run_end chars rest ->
  let l' := moved (Position l + len (encode taken))
                  (repeat EOF k ++ rev (units ++ taken)) l in
  TakeMany chars l = Ok tt l' /\ journal l' pre (units ++ taken) rest k.
Proof.
  intros J F E l'.
  assert (K : taken <> [] -> k = O).
  { intros Ht. destruct k; [reflexivity |].
    pose proof (j_eof _ _ _ _ _ J ltac:(discriminate)) as Hn.
    destruct taken; [contradiction | discriminate]. }
  assert (Vt : valid_runes taken /\ valid_runes rest).
  { apply valid_runes_app. exact (j_rest _ _ _ _ _ J). }
  assert (J' : journal l' pre (units ++ taken) rest k).
  { destruct J as [Hi Hs Hp Hr Hu Hre Hk Hint].
    apply journal_moved; try assumption; try tauto.
    - rewrite Hi, !encode_app, <- !app_assoc. reflexivity.
    - rewrite Hp, encode_app, len_app. lia.
    - apply valid_runes_app. tauto.
    - intros Hk0. specialize (Hk Hk0).
      apply app_eq_nil in Hk. tauto. }
  split; [| exact J'].
  destruct taken as [| t taken].
  - simpl app in J.
    destruct (Next_Backup_journal _ _ _ _ _ J)
      as (l1 & u1 & r1 & k1 & N & J1 & B).
    unfold TakeMany, bind, get. rewrite N.
    replace (length (Input l1) + 2)%nat with (S (length (Input l1) + 1))
      by lia.
    simpl TakeMany_loop. unfold run_end in E. rewrite E.
    unfold ret at 1. rewrite B. unfold ret. f_equal.
    subst l'. symmetry. change (len (encode [])) with 0.
    apply moved_eq; [lia |].
      rewrite app_nil_r. symmetry. exact (j_rewind _ _ _ _ _ J).
  - inversion F as [| x xs Ft Fts]; subst.
    simpl app in J.
    destruct (Next_journal_cons _ _ _ _ _ _ J) as [N J1].
    assert (Hf : (length taken + 2 <= length (Input l) + 2)%nat).
    { pose proof (length_encode_le _ (proj1 Vt)) as L1.
      rewrite (j_input _ _ _ _ _ J), !length_app.
      change (encode ((t :: taken) ++ rest))
        with (encode (t :: taken ++ rest)).
      rewrite encode_cons, encode_app, !length_app.
      rewrite encode_cons, length_app in L1. simpl length in L1. lia. }
    destruct (TakeMany_loop_journal chars _ (length (Input l) + 2)%nat t
                _ _ _ _ _ J1 Fts E Ft Hf) as (l1 & u1 & r1 & k1 & T & J2 & B).
    unfold TakeMany, bind, get. rewrite N.
    change (Input (moved (Position l + RuneLen t) (t :: Rewind l) l))
      with (Input l).
    rewrite T, B. unfold ret. f_equal.
    subst l'. rewrite moved_moved.
    rewrite (K ltac:(discriminate)).
    assert (V : ValidRune t = true).
    { destruct Vt as [Vt0 _]. inversion Vt0; assumption. }
    f_equal.
    + rewrite encode_cons, len_app, (len_EncodeRune t V). simpl. lia.
    + rewrite <- app_assoc. reflexivity.
Qed.

(** ** Emit, Ignore and IgnoreCharacter on a journal lexer *)

Lemma Emit_fields (t : TokenType) (l l' : L) (a : unit) :
  wf l -> Emit t l = Ok a l' ->
  Input l' = Input l /\ Start l' = Position l /\
  Position l' = Position l /\ Rewind l' = [].
Proof.
  intros W E. unfold Emit in E. unfold bind at 1 in E.
  rewrite (Current_ok _ (wf_start _ W) (wf_pos _ W) (wf_len _ W)) in E.
  unfold bind, get, send, modify, Rewind_Clear in E.
  destruct (Tokens l) as [c |]; [| discriminate].
  destruct (closed c); [discriminate |].
  destruct (Z.of_nat (length (queue c)) <? cap c); [| discriminate].
  inversion E; subst. repeat split.
Qed.

Lemma journal_boundary (l l' : L) pre units rest k :
  journal l pre units rest k ->
  Input l' = Input l -> Start l' = Position l ->
  Position l' = Position l -> Rewind l' = [] ->
  journal l' (pre ++ encode units) [] rest O.
Proof.
  intros [Hi Hs Hp Hr Hu Hre Hk Hint] E1 E2 E3 E4.
  constructor.
  - rewrite E1, Hi. simpl. rewrite <- app_assoc. reflexivity.
  - rewrite E2, Hp, len_app. reflexivity.
  - rewrite E3, Hp, len_app. change (len (encode [])) with 0. lia.
  - rewrite E4. reflexivity.
  - constructor.
  - assumption.
  - intros F. contradiction.
  - rewrite E1. assumption.
Qed.

Lemma Ignore_unfold (l : L) :
  Ignore l = Ok tt (set_Rewind [] (set_Start (Position l) l)).
Proof. reflexivity. Qed.

(** What [IgnoreCharacter] does on any lexer. *)
Lemma IgnoreCharacter_unfold (l : L) :
  IgnoreCharacter l =
  let r := fst (runeStack.Pop (Rewind l)) in
  let l1 := set_Rewind (snd (runeStack.Pop (Rewind l))) l in
  let p := int64 (Position l - RuneLen r) in
  match slice (Input l) 0 p with
  | None => Panic RuntimeError l1
  | Some a =>
      match slice (Input l) (Position l) (len (Input l)) with
      | None => Panic RuntimeError l1
      | Some b => Ok tt (set_Position p (set_Input (a ++ b) l1))
      end
  end.
Proof.
  unfold IgnoreCharacter, bind, Rewind_Pop, get, sliceM.
  destruct (runeStack.Pop (Rewind l)) as [r s]. cbn [fst snd].
  cbv zeta. cbn [Input Position set_Rewind].
  destruct (slice (Input l) 0 (int64 (Position l - RuneLen r)));
    [| reflexivity].
  unfold ret at 1.
  destruct (slice (Input l) (Position l) (len (Input l))); reflexivity.
Qed.

(** With a rune on top of the rewind stack, [IgnoreCharacter] cuts that
    rune's bytes out of the input and steps back over them. *)
Lemma IgnoreCharacter_journal (l : L) pre units r rest :
  journal l pre (units ++ [r]) rest O ->
  let l' := moved (Position l - RuneLen r) (rev units)
                  (set_Input (pre ++ encode units ++ encode rest) l) in
  IgnoreCharacter l = Ok tt l' /\ journal l' pre units rest O.
Proof.
  intros J l'. pose proof (journal_cursor _ _ _ _ _ J) as C.
  destruct J as [Hi Hs Hp Hr Hu Hre Hk Hint].
  apply valid_runes_app in Hu. destruct Hu as [Hu Hv].
  assert (V : ValidRune r = true) by (inversion Hv; assumption).
  pose proof (RuneLen_valid r V) as B.
  pose proof (len_EncodeRune r V) as LE.
  pose proof (len_nonneg pre). pose proof (len_nonneg (encode units)).
  pose proof (len_nonneg (encode rest)).
  assert (LU : len (encode (units ++ [r])) = len (encode units) + RuneLen r).
  { rewrite encode_snoc, len_app, LE. reflexivity. }
  assert (LI : len (Input l) =
               len pre + len (encode units) + RuneLen r + len (encode rest)).
  { rewrite Hi, encode_snoc, !len_app. lia. }
  split.
  - rewrite IgnoreCharacter_unfold, Hr, rev_app_distr. simpl.
    rewrite int64_id by (unfold maxInt in *; lia).
    rewrite C.
    replace (slice (Input l) 0 (Position l - RuneLen r))
      with (Some (pre ++ encode units)).
    + rewrite <- app_assoc. reflexivity.
    + symmetry. rewrite Hi, Hp, LU, encode_snoc.
      replace (len pre + (len (encode units) + RuneLen r) - RuneLen r)
        with (len (pre ++ encode units)) by (rewrite len_app; lia).
      rewrite <- app_assoc, (app_assoc pre).
      apply slice_to_app.
  - subst l'. constructor.
    + reflexivity.
    + exact Hs.
    + change (Position l - RuneLen r = len pre + len (encode units)). lia.
    + reflexivity.
    + assumption.
    + assumption.
    + intros F. exfalso. apply F. reflexivity.
    + change (len (pre ++ encode units ++ encode rest) <= maxInt).
      rewrite !len_app. unfold maxInt in *. lia.
Qed.

(** ** The runes of an encoding *)

Lemma range_from_encode (rs : list rune) :
  valid_runes rs ->
  forall (fuel : nat) (i : Z),
    (length (encode rs) <= fuel)%nat ->
    map snd (range_from fuel i (encode rs)) = rs.
Proof.
  induction 1 as [| r rs V _ IH]; intros fuel i Hf.
  - destruct fuel; reflexivity.
  - pose proof (len_EncodeRune r V) as LE.
    pose proof (RuneLen_valid r V) as B.
    rewrite encode_cons in *. rewrite length_app in Hf.
    unfold len in LE.
    destruct fuel as [| fuel]; [lia |].
    destruct (EncodeRune r) as [| b bs] eqn:Eb; [simpl in LE; lia |].
    cbn [range_from app].
    change (b :: bs ++ encode rs) with ((b :: bs) ++ encode rs).
    rewrite <- Eb.
    rewrite (proj1 (Decode_Encode r (encode rs) V)).
    cbn [map snd]. f_equal.
    replace (Z.to_nat (RuneLen r)) with (length (EncodeRune r))
      by (rewrite Eb; lia).
    rewrite skipn_app, skipn_all, Nat.sub_diag. simpl.
    apply IH. simpl in Hf. lia.
Qed.

Lemma runes_encode (rs : list rune) :
  valid_runes rs -> runes (encode rs) = rs.
Proof.
  intros V. unfold runes, range. apply range_from_encode; [exact V | lia].
Qed.

(** * Reachable lexers *)

Lemma bind_ret_inv {A} (m : M A) (l l' : L) :
  (m ;; ret tt) l = Ok tt l' -> exists a, m l = Ok a l'.
Proof.
  unfold bind, ret. destruct (m l) as [a l1 | | |]; try discriminate.
  intros E. inversion E; subst. exists a. reflexivity.
Qed.

Lemma take_run_split (chars : GoString) (rest : list rune) :
  exists taken rest2,
    rest = taken ++ rest2 /\
    Forall (fun x => Strings.ContainsRune chars x = true) taken /\
    run_end chars rest2.
Proof.
  induction rest as [| r rest IH].
  - exists [], []. repeat split. constructor.
  - destruct (Strings.ContainsRune chars r) eqn:E.
    + destruct IH as (taken & rest2 & -> & F & R).
      exists (r :: taken), rest2. repeat split; [constructor |]; assumption.
    + exists [], (r :: rest). repeat split; [constructor | exact E].
Qed.

Lemma journal_New (src : GoString) (rs : list rune)
      (start : option StateFunc) :
  valid_runes rs -> src = encode rs -> len src <= maxInt ->
  journal (New src start) [] [] rs O.
Proof.
  intros V -> Hint. constructor; try reflexivity; try assumption.
  - constructor.
  - intros F. exfalso. apply F. reflexivity.
Qed.

Lemma journal_rewind_top (l : L) pre units rest k (r : rune) (s : list rune) :
  journal l pre units rest k -> Rewind l = r :: s -> r <> EOF ->
  k = O /\ exists us, units = us ++ [r].
Proof.
  intros J E N. rewrite (j_rewind _ _ _ _ _ J) in E.
  destruct k as [| k]; [| simpl in E; inversion E; congruence].
  split; [reflexivity |]. simpl in E.
  destruct (rev units) as [| x xs] eqn:Er; [discriminate |].
  inversion E; subst x xs.
  exists (rev s). rewrite <- (rev_involutive units), Er. reflexivity.
Qed.

Lemma Next_journalled (l l' : L) (r : rune) :
  journalled l -> Next l = Ok r l' -> journalled l'.
Proof.
  intros (pre & units & rest & k & J) E.
  destruct (Next_Backup_journal _ _ _ _ _ J)
    as (l1 & u1 & r1 & k1 & N & J1 & _).
  rewrite N in E. inversion E; subst. exists pre, u1, r1, k1. exact J1.
Qed.

Lemma Backup_journalled (l l' : L) (b : bool) :
  journalled l -> Backup l = Ok b l' -> journalled l'.
Proof.
  intros (pre & units & rest & k & J) E.
  destruct k as [| k].
  - destruct units as [| u us _] using rev_ind.
    + rewrite (Backup_journal_empty _ _ _ J) in E.
      inversion E; subst. exists pre, [], rest, O. exact J.
    + destruct (Backup_journal_unit _ _ _ _ _ J) as [B J1].
      rewrite B in E. inversion E; subst.
      exists pre, us, (u :: rest), O. exact J1.
  - destruct (Backup_journal_mark _ _ _ _ _ J) as [B J1].
    rewrite B in E. inversion E; subst.
    exists pre, units, rest, k. exact J1.
Qed.

Lemma TakeManyPattern_loop_journalled (p : Regexp) (fuel : nat) :
  forall (r : rune) (l l' : L),
    journalled l -> TakeManyPattern_loop p fuel r l = Ok tt l' ->
    journalled l'.
Proof.
  induction fuel as [| fuel IH]; intros r l l' J E; [discriminate |].
  simpl in E. destruct (p (string_of_rune r)).
  - unfold bind in E. destruct (Next l) as [r1 l1 | | |] eqn:N;
      try discriminate.
    exact (IH r1 l1 l' (Next_journalled _ _ _ J N) E).
  - inversion E; subst. exact J.
Qed.

(** Every operation takes a journal lexer to a journal lexer. *)
Lemma exec_journalled (o : Op) (l l' : L) :
  journalled l -> guard o l -> exec o l = Ok tt l' -> journalled l'.
Proof.
  intros JJ G E. pose proof JJ as (pre & units & rest & k & J).
  destruct o; simpl in E.
  - (* Next *)
    apply bind_ret_inv in E. destruct E as [a E].
    exact (Next_journalled _ _ _ JJ E).
  - (* Backup *)
    apply bind_ret_inv in E. destruct E as [a E].
    exact (Backup_journalled _ _ _ JJ E).
  - (* Peek *)
    apply bind_ret_inv in E. destruct E as [a E].
    rewrite (Peek_journal _ _ _ _ _ J) in E. inversion E; subst.
    exact JJ.
  - (* PeekMany *)
    apply bind_ret_inv in E. destruct E as [a E].
    destruct (PeekMany_journal n _ _ _ _ _ J) as [r P].
    rewrite P in E. inversion E; subst.
    exact JJ.
  - (* Take *)
    apply bind_ret_inv in E. destruct E as [a E].
    destruct (Take_journal chars _ _ _ _ _ J)
      as (l1 & u1 & r1 & k1 & _ & J1 & T).
    rewrite T in E.
    destruct (Strings.ContainsRune chars (hd EOF rest));
      inversion E; subst.
    + exists pre, u1, r1, k1. exact J1.
    + exact JJ.
  - (* TakeMany *)
    destruct (take_run_split chars rest) as (taken & rest2 & -> & F & R).
    destruct (TakeMany_journal chars taken _ _ _ _ _ J F R) as [T J1].
    rewrite T in E. inversion E; subst.
    exists pre, (units ++ taken), rest2, k. exact J1.
  - (* TakePattern *)
    apply bind_ret_inv in E. destruct E as [a E].
    unfold TakePattern, bind in E.
    destruct (Next l) as [r1 l1 | | |] eqn:N; try discriminate.
    pose proof (Next_journalled _ _ _ JJ N) as J1.
    destruct (p (string_of_rune r1)).
    + inversion E; subst. exact J1.
    + destruct (Backup l1) as [b l2 | | |] eqn:B; try discriminate.
      inversion E; subst. exact (Backup_journalled _ _ _ J1 B).
  - (* TakeManyPattern *)
    unfold TakeManyPattern, bind in E.
    destruct (Next l) as [r1 l1 | | |] eqn:N; try discriminate.
    pose proof (Next_journalled _ _ _ JJ N) as J1.
    destruct (TakeManyPattern_loop p fuel r1 l1) as [u l2 | | |] eqn:T;
      try discriminate.
    destruct u.
    pose proof (TakeManyPattern_loop_journalled p fuel r1 l1 l2 J1 T) as J2.
    destruct (Backup l2) as [b l3 | | |] eqn:B; try discriminate.
    inversion E; subst. exact (Backup_journalled _ _ _ J2 B).
  - (* Emit *)
    destruct (Emit_fields _ _ _ _ (journal_wf _ _ _ _ _ J) E)
      as (E1 & E2 & E3 & E4).
    exists (pre ++ encode units), [], rest, O.
    exact (journal_boundary _ _ _ _ _ _ J E1 E2 E3 E4).
  - (* Ignore *)
    rewrite Ignore_unfold in E. inversion E; subst.
    exists (pre ++ encode units), [], rest, O.
    apply (journal_boundary _ _ _ _ _ _ J); reflexivity.
  - (* IgnoreCharacter *)
    destruct G as (r & s & Er & Nr).
    destruct (journal_rewind_top _ _ _ _ _ _ _ J Er Nr) as [-> [us ->]].
    destruct (IgnoreCharacter_journal _ _ _ _ _ J) as [I J1].
    rewrite I in E. inversion E; subst.
    exists pre, us, rest, O. exact J1.
  - (* Error *)
    unfold Error, bind, get, modify, panic in E.
    destruct (ErrorHandler l); [| discriminate].
    inversion E; subst.
    exists pre, units, rest, k.
    apply (journal_fields _ _ _ _ _ _ J); reflexivity.
  - (* NextToken *)
    apply bind_ret_inv in E. destruct E as [a E].
    unfold NextToken, bind, receive, ret in E.
    destruct (Tokens l) as [c |]; [| discriminate].
    exists pre, units, rest, k.
    destruct (queue c) as [| tok q].
    + destruct (closed c); [| discriminate]. inversion E; subst. exact J.
    + inversion E; subst.
      apply (journal_fields _ _ _ _ _ _ J); reflexivity.
  - (* StateRecord.Push *)
    inversion E; subst. exists pre, units, rest, k.
    apply (journal_fields _ _ _ _ _ _ J); reflexivity.
  - (* StateRecord.Pop *)
    apply bind_ret_inv in E. destruct E as [a E].
    unfold StateRecord_Pop in E.
    destruct (stateStack.Pop (StateRecord l)) as [f s].
    inversion E; subst. exists pre, units, rest, k.
    apply (journal_fields _ _ _ _ _ _ J); reflexivity.
Qed.

(** On valid UTF-8 every reachable lexer is a journal lexer. *)
Lemma reachable_journalled (src : GoString) (l : L) :
  valid_utf8 src -> len src <= maxInt -> reachable src l -> journalled l.
Proof.
  intros (rs & V & Es) Hint R.
  induction R as [start | l h _ IH | l size _ IH | l l' o _ IH G E].
  - exists [], [], rs, O. apply journal_New; assumption.
  - destruct IH as (pre & units & rest & k & J).
    exists pre, units, rest, k.
    apply (journal_fields _ _ _ _ _ _ J); reflexivity.
  - destruct IH as (pre & units & rest & k & J).
    exists pre, units, rest, k.
    apply (journal_fields _ _ _ _ _ _ J); reflexivity.
  - exact (exec_journalled o l l' IH G E).
Qed.

(** C3, as the code has it.  On a valid UTF-8 input, in every reachable
    lexer the rewind stack is, from the bottom, the runes of the text
    between [Start] and [Position] in the order they were read, and on
    top of them only end-of-input marks, which [Next] pushes when it is
    called at the end of the input without reading anything.  Marks are
    there only while the cursor is at the end of the input. *)
Theorem rewind_journal (src : GoString) (l : L) :
  valid_utf8 src -> len src <= maxInt -> reachable src l ->
  exists (text : GoString) (units : list rune) (k : nat),
    slice (Input l) (Start l) (Position l) = Some text /\
    runes text = units /\
    text = encode units /\
    Rewind l = repeat EOF k ++ rev units /\
    Forall (fun r => r <> EOF) units /\
    (k <> O -> Position l = len (Input l)).
Proof.
  intros V Hint R.
  destruct (reachable_journalled src l V Hint R)
    as (pre & units & rest & k & J).
  exists (encode units), units, k.
  destruct J as [Hi Hs Hp Hr Hu Hre Hk Hi64].
  split; [rewrite Hi, Hs, Hp; apply slice_app |].
  split; [apply runes_encode; exact Hu |].
  split; [reflexivity |].
  split; [exact Hr |]. split.
  - eapply Forall_impl; [| exact Hu]. intros a Va Ea. subst a. discriminate.
  - intros Nk. rewrite (Hk Nk) in Hi.
    rewrite Hi, Hp, !len_app. change (len (encode [])) with 0. lia.
Qed.

Lemma reachable_l_ab : reachable (list_byte_of_string "ab") l_ab.
Proof.
  apply reach_step with
    (l := moved 1 [97] (New (list_byte_of_string "ab") None)) (o := OpNext);
    [| exact I | reflexivity].
  apply reach_step with
    (l := New (list_byte_of_string "ab") None) (o := OpNext);
    [| exact I | reflexivity].
  apply reach_New.
Qed.

Lemma valid_utf8_ab : valid_utf8 (list_byte_of_string "ab").
Proof.
  exists [97; 98]. split; [| reflexivity].
  repeat constructor.
Qed.

(** ["ab"] with both bytes read: the stack is ['b'] over ['a']. *)
Lemma rewind_journal_witness :
  exists (text : GoString) (units : list rune) (k : nat),
    slice (Input l_ab) (Start l_ab) (Position l_ab) = Some text /\
    runes text = units /\
    text = encode units /\
    Rewind l_ab = repeat EOF k ++ rev units /\
    Forall (fun r => r <> EOF) units /\
    (k <> O -> Position l_ab = len (Input l_ab)).
Proof.
  apply (rewind_journal (list_byte_of_string "ab") l_ab).
  - exact valid_utf8_ab.
  - unfold maxInt, len. simpl. lia.
  - exact reachable_l_ab.
Defined.

Lemma reachable_l_empty_next : reachable [] l_empty_next.
Proof.
  apply reach_step with (l := New [] None) (o := OpNext);
    [apply reach_New | exact I | reflexivity].
Qed.

(** C3 as first stated fails: on the empty input one [Next] pushes the
    end-of-input mark, and no unit has been read. *)
Lemma rewind_journal_counterexample :
  valid_utf8 [] /\ reachable [] l_empty_next /\
  Position l_empty_next = Start l_empty_next /\
  Rewind l_empty_next = [EOF] /\
  ~ rewind_mirrors_lexeme l_empty_next.
Proof.
  split; [exists []; split; [constructor | reflexivity] |].
  split; [exact reachable_l_empty_next |].
  split; [reflexivity |]. split; [reflexivity |].
  intros (text & S & E).
  change (Some (@nil byte) = Some text) in S.
  inversion S; subst text. discriminate E.
Qed.

(** * Next and TakeMany on any well-formed lexer *)

Lemma slice_len (s t : GoString) (lo hi : Z) :
  slice s lo hi = Some t -> len t = hi - lo.
Proof.
  unfold slice.
  destruct ((0 <=? lo) && (lo <=? hi) && (hi <=? len s)) eqn:C;
    [| discriminate].
  intros E. inversion E; subst t. unfold len in *.
  rewrite length_firstn, length_skipn. lia.
Qed.

(** [Next] never fails on a well-formed lexer: at the end of the input
    it pushes the mark and stays, elsewhere it moves forward over one to
    four bytes and pushes a valid rune. *)
Lemma Next_wf (l : L) :
  wf l ->
  exists r l',
    Next l = Ok r l' /\ wf l' /\
    Input l' = Input l /\ Start l' = Start l /\
    ((r = EOF /\ Position l = len (Input l) /\ Position l' = Position l) \/
     (ValidRune r = true /\ Position l < Position l' <= len (Input l))).
Proof.
  intros W. rewrite Next_unfold.
  assert (S : slice (Input l) (Position l) (len (Input l)) =
              Some (firstn (Z.to_nat (len (Input l) - Position l))
                           (skipn (Z.to_nat (Position l)) (Input l)))).
  { apply slice_Some; destruct W; lia. }
  rewrite S. pose proof (slice_len _ _ _ _ S) as Ls.
  set (str := firstn _ _) in *. cbv zeta.
  destruct (len str =? 0) eqn:Z0.
  - eexists _, _. split; [reflexivity |]. cbn [fst snd].
    rewrite Z.add_0_r, int64_id
      by (destruct W; unfold maxInt in *; lia).
    split; [| split; [reflexivity | split; [reflexivity |]]].
    + destruct W as [W1 W2 W3 W4 W5].
      constructor; simpl; try assumption.
      constructor; [left; reflexivity | assumption].
    + left. simpl. lia.
  - assert (Ne : str <> []).
    { intros E. rewrite E in Z0. discriminate. }
    pose proof (Decode_props str Ne) as (V & Bw & _). cbv zeta in V, Bw.
    destruct (DecodeRuneInString str) as [r w]. cbn [fst snd] in *.
    eexists _, _. split; [reflexivity |].
    rewrite int64_id by (destruct W; unfold maxInt in *; lia).
    split; [| split; [reflexivity | split; [reflexivity |]]].
    + destruct W as [W1 W2 W3 W4 W5].
      constructor; simpl; try assumption; try lia.
      constructor; [right; exact V | assumption].
    + right. simpl. split; [exact V | lia].
Qed.

Lemma Backup_total (l : L) : exists b l', Backup l = Ok b l'.
Proof.
  rewrite Backup_unfold. cbv zeta.
  destruct (fst (runeStack.Pop (Rewind l)) >? EOF); [| eauto].
  destruct (_ <? _); eauto.
Qed.

Lemma TakeMany_loop_total (chars : GoString) (fuel : nat) :
  forall (r : rune) (l : L),
    wf l ->
    (Z.to_nat (len (Input l) - Position l) + 2 <= fuel)%nat ->
    exists l', TakeMany_loop chars fuel r l = Ok tt l'.
Proof.
  induction fuel as [| fuel IH]; intros r l W Hf; [lia |].
  simpl. destruct (Strings.ContainsRune chars r); [| eexists; reflexivity].
  destruct (Next_wf l W) as (r' & l' & N & W' & Ei & _ & C).
  unfold bind. rewrite N.
  destruct C as [(Er & Pe & Pp) | (V & Pp)].
  - subst r'. destruct fuel as [| fuel]; [lia |].
    cbn [TakeMany_loop]. rewrite ContainsRune_EOF. eexists; reflexivity.
  - apply IH; [exact W' |]. rewrite Ei. lia.
Qed.

(** [TakeMany] returns on every well-formed lexer: its loop ends and the
    fuel of the model is never used up. *)
Lemma TakeMany_total (chars : GoString) (l : L) :
  wf l -> exists l', TakeMany chars l = Ok tt l'.
Proof.
  intros W.
  destruct (Next_wf l W) as (r & l1 & N & W1 & Ei & _ & C).
  unfold TakeMany, bind, get. rewrite N.
  destruct (TakeMany_loop_total chars (length (Input l1) + 2) r l1 W1)
    as [l2 T].
  { rewrite Ei. destruct W1 as [? ? ? ? ?].
    unfold len in *. rewrite Ei in *. lia. }
  rewrite T. destruct (Backup_total l2) as (b & l3 & B).
  rewrite B. eexists. reflexivity.
Qed.

(** At the end of the input the loop of [TakeManyPattern] sees
    [string(rune(EOFToken))], the encoding of [RuneError].  With a
    pattern that matches it the loop pushes one mark after the other and
    does not end, whatever the fuel. *)
Lemma TakeManyPattern_loop_at_end (p : Regexp) (fuel : nat) :
  p (string_of_rune EOF) = true ->
  forall l, wf l -> Position l = len (Input l) ->
  exists l', TakeManyPattern_loop p fuel EOF l = OutOfFuel l'.
Proof.
  intros Hp. induction fuel as [| fuel IH]; intros l W P.
  - exists l. reflexivity.
  - cbn [TakeManyPattern_loop]. rewrite Hp. unfold bind.
    rewrite (Next_at_end _ P (wf_int _ W)). apply IH.
    + destruct W as [W1 W2 W3 W4 W5]. constructor; try assumption.
      constructor; [left; reflexivity | assumption].
    + exact P.
Qed.

(** * Peek *)

(** On valid UTF-8, [Peek] on a reachable lexer returns what [Next]
    returns and leaves the lexer as it was, however often it is called. *)
Lemma Peek_valid_utf8 (src : GoString) (l : L) :
  valid_utf8 src -> len src <= maxInt -> reachable src l ->
  exists r l1,
    Next l = Ok r l1 /\ Peek l = Ok r l /\ (Peek ;; Peek) l = Ok r l.
Proof.
  intros V Hint R.
  destruct (reachable_journalled src l V Hint R)
    as (pre & units & rest & k & J).
  destruct (Next_Backup_journal _ _ _ _ _ J)
    as (l1 & u1 & r1 & k1 & N & _ & _).
  exists (hd EOF rest), l1. split; [exact N |].
  pose proof (Peek_journal _ _ _ _ _ J) as P.
  split; [exact P |]. unfold bind. rewrite P. exact P.
Qed.

Lemma reachable_l_a_ff : reachable src_a_ff l_a_ff.
Proof.
  apply reach_step with (l := New src_a_ff None) (o := OpNext);
    [apply reach_New | exact I | reflexivity].
Qed.

(** C5 on ["a\xff"] with ['a'] read.  [Next] reads the byte [0xff] as
    [RuneError], one byte wide; [Backup] steps back by
    [RuneLen RuneError], three bytes, and stops at [Start].  So [Peek]
    moves the cursor from 1 to 0, and a second [Peek] returns ['a']. *)
Theorem Peek_invalid_byte :
  reachable src_a_ff l_a_ff /\ wf l_a_ff /\
  Next l_a_ff = Ok RuneError (moved 2 [RuneError; 97] l_a_ff) /\
  Peek l_a_ff = Ok RuneError (moved 0 [97] l_a_ff) /\
  Position l_a_ff = 1 /\
  (Peek ;; Peek) l_a_ff = Ok 97 (moved 0 [97] l_a_ff).
Proof.
  split; [exact reachable_l_a_ff |]. split.
  - constructor; simpl; try (unfold maxInt, len; simpl; lia).
    repeat constructor; right; reflexivity.
  - repeat split.
Qed.

(** * Backup after a byte that starts no encoding *)

(** C1 on ["a\xff"] with both units read.  The unit on top of the rewind
    stack is the byte [0xff]: [Next] read it as [RuneError] and moved
    the cursor by one byte, from 1 to 2.  The stack keeps the rune, not
    the width read, and [Backup] takes [RuneLen RuneError], three bytes,
    for the width: 2 - 3 is below [Start], so the cursor is set to 0 and
    the result is [true].  Stepping back by the width of the unit gives
    the lexer as it was before that [Next], the cursor at 1, with the
    result [false]; that is what [Backup] does when the unit is a rune
    and not such a byte, as after the first [Next]. *)
Theorem Backup_invalid_byte :
  reachable src_a_ff l_a_ff_read /\ wf l_a_ff_read /\
  Next l_a_ff = Ok RuneError l_a_ff_read /\
  Position l_a_ff_read - Position l_a_ff = 1 /\
  RuneLen RuneError = 3 /\
  Backup l_a_ff_read = Ok true (moved 0 [97] l_a_ff_read) /\
  Backup l_a_ff_read <> Ok false l_a_ff /\
  (Next ;; Backup) (New src_a_ff None) = Ok false (New src_a_ff None).
Proof.
  split.
  { apply reach_step with (l := l_a_ff) (o := OpNext);
      [exact reachable_l_a_ff | exact I | reflexivity]. }
  split.
  { constructor; simpl; try (unfold maxInt, len; simpl; lia).
    repeat constructor; right; reflexivity. }
  repeat split. discriminate.
Qed.

(** * TakeMany *)

(** X19. On valid UTF-8, [TakeMany] on a reachable lexer reads the
    longest run of runes of [chars] at the cursor and leaves the first
    rune that is not one of them unread; when every rune left is one of
    [chars] the cursor ends at the end of the input. *)
Lemma TakeMany_valid_utf8 (src chars : GoString) (l : L) :
  valid_utf8 src -> len src <= maxInt -> reachable src l ->
  exists taken rest,
    slice (Input l) (Position l) (len (Input l)) =
      Some (encode taken ++ encode rest) /\
    valid_runes taken /\ valid_runes rest /\
    Forall (fun x => Strings.ContainsRune chars x = true) taken /\
    Strings.ContainsRune chars (hd EOF rest) = false /\
    TakeMany chars l =
      Ok tt (moved (Position l + len (encode taken))
                   (rev taken ++ Rewind l) l) /\
    (rest = [] -> Position l + len (encode taken) = len (Input l)).
Proof.
  intros V Hint R.
  destruct (reachable_journalled src l V Hint R)
    as (pre & units & rest0 & k & J).
  destruct (take_run_split chars rest0) as (taken & rest & -> & F & E).
  exists taken, rest.
  pose proof (journal_cursor _ _ _ _ _ J) as C.
  rewrite encode_app in C.
  pose proof (j_rest _ _ _ _ _ J) as Vr.
  apply valid_runes_app in Vr. destruct Vr as [Vt Vr].
  destruct (TakeMany_journal chars taken _ _ _ _ _ J F E) as [T _].
  repeat split; try assumption.
  - rewrite T. f_equal. f_equal.
    rewrite (j_rewind _ _ _ _ _ J), rev_app_distr.
    destruct taken as [| t taken]; [reflexivity |].
    destruct k as [| k]; [reflexivity |].
    pose proof (j_eof _ _ _ _ _ J ltac:(discriminate)). discriminate.
  - intros ->. apply slice_len in C.
    change (encode []) with (@nil byte) in C.
    rewrite app_nil_r in C. lia.
Qed.

(** C6 on ["12\xff"] with [chars = "12"].  The run ["12"] is read, then
    the byte [0xff] as [RuneError], which is not in [chars]; [Backup]
    steps back three bytes for the one byte read.  The cursor ends at 0,
    not at 2 before the byte that did not match. *)
Theorem TakeMany_invalid_byte :
  TakeMany (list_byte_of_string "12") (New src_12_ff None) =
    Ok tt (moved 0 [50; 49] (New src_12_ff None)) /\
  DecodeRuneInString [xff] = (RuneError, 1) /\
  Strings.ContainsRune (list_byte_of_string "12") RuneError = false /\
  RuneLen RuneError = 3.
Proof. repeat split. Qed.

(** * IgnoreCharacter *)

(** X20. On valid UTF-8, [IgnoreCharacter] on a reachable lexer with a
    rune [r] on top of the rewind stack cuts the bytes of [r], which end
    at the cursor, out of the input, steps back over them and pops [r];
    the text of the lexeme in progress loses exactly those bytes. *)
Lemma IgnoreCharacter_valid_utf8 (src : GoString) (l : L)
      (r : rune) (s : list rune) :
  valid_utf8 src -> len src <= maxInt -> reachable src l ->
  Rewind l = r :: s -> r <> EOF ->
  exists before after text,
    Input l = before ++ EncodeRune r ++ after /\
    Position l = len before + RuneLen r /\
    len (EncodeRune r) = RuneLen r /\
    Current l = Ok (text ++ EncodeRune r) l /\
    let l' := moved (Position l - RuneLen r) s
                    (set_Input (before ++ after) l) in
    IgnoreCharacter l = Ok tt l' /\
    Current l' = Ok text l'.
Proof.
  intros V Hint R Er Nr.
  destruct (reachable_journalled src l V Hint R)
    as (pre & units & rest & k & J).
  destruct (journal_rewind_top _ _ _ _ _ _ _ J Er Nr) as [-> [us ->]].
  destruct (IgnoreCharacter_journal _ _ _ _ _ J) as [I J1].
  pose proof (j_units _ _ _ _ _ J) as Vu.
  apply valid_runes_app in Vu. destruct Vu as [_ Vu].
  assert (Vr : ValidRune r = true) by (inversion Vu; assumption).
  assert (Es : s = rev us).
  { pose proof (j_rewind _ _ _ _ _ J) as Hr. rewrite Er in Hr.
    rewrite rev_app_distr in Hr. simpl in Hr. congruence. }
  exists (pre ++ encode us), (encode rest), (encode us).
  split; [| split; [| split; [| split]]].
  - rewrite (j_input _ _ _ _ _ J), encode_snoc, <- !app_assoc. reflexivity.
  - rewrite (j_pos _ _ _ _ _ J), encode_snoc, !len_app,
      (len_EncodeRune r Vr). lia.
  - exact (len_EncodeRune r Vr).
  - rewrite (journal_Current _ _ _ _ _ J), encode_snoc. reflexivity.
  - cbv zeta. rewrite Es, <- app_assoc. split; [exact I |].
    exact (journal_Current _ _ _ _ _ J1).
Qed.

(** C8 on ["abc\xff"] with the four units read.  The unit read last is
    the byte [0xff], read as [RuneError]; [IgnoreCharacter] takes
    [RuneLen RuneError], three bytes, for its width and cuts ["bc\xff"]
    out of the input.  On ["a\xff"] with both units read the same width
    puts the slice bound below zero and the call panics.  On ["x"] read
    to the end and one [Next] more, the end-of-input mark is on top:
    [RuneLen] of it is -1, the slice bound is past the end of the input
    and the call panics. *)
Theorem IgnoreCharacter_wrong_width :
  (Next ;; Next ;; Next ;; Next) (New src_abc_ff None) =
    Ok RuneError l_abc_ff /\
  IgnoreCharacter l_abc_ff =
    Ok tt (moved 1 [99; 98; 97] (set_Input [x61] l_abc_ff)) /\
  (Next ;; Next ;; IgnoreCharacter) (New src_a_ff None) =
    Panic RuntimeError (moved 2 [97] (New src_a_ff None)) /\
  (Next ;; IgnoreCharacter) l_end =
    Panic RuntimeError l_end.
Proof. repeat split. Qed.

(** * Token.String: truncation to a number of runes *)










(** * What the scanning operations change *)

Lemma only_moved_refl (l : L) : only_moved l l.
Proof. exists (Position l), (Rewind l). symmetry. apply moved_same. Qed.

Lemma only_moved_trans (l1 l2 l3 : L) :
  only_moved l1 l2 -> only_moved l2 l3 -> only_moved l1 l3.
Proof.
  intros (p & rw & ->) (q & rw' & ->). exists q, rw'. apply moved_moved.
Qed.

Lemma Next_moves (l l' : L) (r : rune) :
  Next l = Ok r l' ->
  exists p, l' = moved p (r :: Rewind l) l.
Proof.
  rewrite Next_unfold.
  destruct (slice (Input l) (Position l) (len (Input l))) as [str |];
    [| discriminate].
  cbv zeta. intros E. inversion E; subst.
  eexists. reflexivity.
Qed.

Lemma Backup_moves (l l' : L) (b : bool) :
  Backup l = Ok b l' ->
  exists p, l' = moved p (snd (runeStack.Pop (Rewind l))) l.
Proof.
  rewrite Backup_unfold. cbv zeta.
  destruct (fst (runeStack.Pop (Rewind l)) >? EOF).
  - destruct (_ <? _); intros E; inversion E; subst; eexists; reflexivity.
  - intros E. inversion E; subst. exists (Position l).
    destruct l; reflexivity.
Qed.

Lemma Backup_wf (l l' : L) (b : bool) :
  wf l -> Backup l = Ok b l' -> wf l'.
Proof.
  intros W. rewrite Backup_unfold. cbv zeta.
  assert (T : Forall unit_ok (snd (runeStack.Pop (Rewind l)))).
  { pose proof (wf_rewind _ W) as F.
    destruct (Rewind l); simpl; [constructor | inversion F; assumption]. }
  assert (U : unit_ok (fst (runeStack.Pop (Rewind l)))).
  { pose proof (wf_rewind _ W) as F.
    destruct (Rewind l); simpl; [left; reflexivity | inversion F; assumption]. }
  destruct W as [W1 W2 W3 W4 W5].
  destruct (fst (runeStack.Pop (Rewind l)) >? EOF) eqn:G.
  - destruct U as [U | U]; [rewrite U in G; discriminate |].
    pose proof (RuneLen_valid _ U) as B.
    rewrite int64_id by (unfold maxInt in *; lia).
    destruct (_ <? _) eqn:Lt; intros E; inversion E; subst;
      constructor; simpl; try assumption; lia.
  - intros E. inversion E; subst. constructor; simpl; assumption.
Qed.

Lemma scan_step_ok_refl (l : L) : scan_step_ok l l.
Proof. split; [apply only_moved_refl | tauto]. Qed.

Lemma scan_step_ok_trans (l1 l2 l3 : L) :
  scan_step_ok l1 l2 -> scan_step_ok l2 l3 -> scan_step_ok l1 l3.
Proof.
  intros [M1 W1] [M2 W2]. split; [| tauto].
  exact (only_moved_trans _ _ _ M1 M2).
Qed.

Lemma Next_step_ok (l l' : L) (r : rune) :
  Next l = Ok r l' -> scan_step_ok l l'.
Proof.
  intros E. split.
  - destruct (Next_moves _ _ _ E) as [p ->]. eexists _, _. reflexivity.
  - intros W. destruct (Next_wf l W) as (r' & l1 & N & W1 & _).
    rewrite N in E. inversion E; subst. exact W1.
Qed.

Lemma Backup_step_ok (l l' : L) (b : bool) :
  Backup l = Ok b l' -> scan_step_ok l l'.
Proof.
  intros E. split.
  - destruct (Backup_moves _ _ _ E) as [p ->]. eexists _, _. reflexivity.
  - intros W. exact (Backup_wf _ _ _ W E).
Qed.

Lemma Next_times_step_ok (n : nat) :
  forall (r0 r : rune) (l l' : L),
    Next_times n r0 l = Ok r l' -> scan_step_ok l l'.
Proof.
  induction n as [| n IH]; intros r0 r l l' E.
  - inversion E; subst. apply scan_step_ok_refl.
  - simpl in E. unfold bind in E.
    destruct (Next l) as [r1 l1 | | |] eqn:N; try discriminate.
    exact (scan_step_ok_trans _ _ _ (Next_step_ok _ _ _ N) (IH _ _ _ _ E)).
Qed.

Lemma Backup_times_step_ok (n : nat) :
  forall (l l' : L), Backup_times n l = Ok tt l' -> scan_step_ok l l'.
Proof.
  induction n as [| n IH]; intros l l' E.
  - inversion E; subst. apply scan_step_ok_refl.
  - simpl in E. unfold bind in E.
    destruct (Backup l) as [b l1 | | |] eqn:B; try discriminate.
    exact (scan_step_ok_trans _ _ _ (Backup_step_ok _ _ _ B) (IH _ _ E)).
Qed.

Lemma TakeMany_loop_step_ok (chars : GoString) (fuel : nat) :
  forall (r : rune) (l l' : L),
    TakeMany_loop chars fuel r l = Ok tt l' -> scan_step_ok l l'.
Proof.
  induction fuel as [| fuel IH]; intros r l l' E; [discriminate |].
  simpl in E. destruct (Strings.ContainsRune chars r).
  - unfold bind in E.
    destruct (Next l) as [r1 l1 | | |] eqn:N; try discriminate.
    exact (scan_step_ok_trans _ _ _ (Next_step_ok _ _ _ N) (IH _ _ _ E)).
  - inversion E; subst. apply scan_step_ok_refl.
Qed.

Lemma TakeManyPattern_loop_step_ok (p : Regexp) (fuel : nat) :
  forall (r : rune) (l l' : L),
    TakeManyPattern_loop p fuel r l = Ok tt l' -> scan_step_ok l l'.
Proof.
  induction fuel as [| fuel IH]; intros r l l' E; [discriminate |].
  simpl in E. destruct (p (string_of_rune r)).
  - unfold bind in E.
    destruct (Next l) as [r1 l1 | | |] eqn:N; try discriminate.
    exact (scan_step_ok_trans _ _ _ (Next_step_ok _ _ _ N) (IH _ _ _ E)).
  - inversion E; subst. apply scan_step_ok_refl.
Qed.

(** [Next], [Backup], [Peek], [PeekMany], [Take], [TakeMany],
    [TakePattern] and [TakeManyPattern] change the cursor and the rewind
    stack only, and keep a well-formed lexer well formed. *)
Lemma exec_scan_step_ok (o : Op) (l l' : L) :
  match o with
  | OpNext | OpBackup | OpPeek | OpPeekMany _ | OpTake _ | OpTakeMany _
  | OpTakePattern _ | OpTakeManyPattern _ _ => True
  | _ => False
  end ->
  exec o l = Ok tt l' -> scan_step_ok l l'.
Proof.
  intros K E. destruct o; try contradiction; simpl in E.
  - apply bind_ret_inv in E. destruct E as [a E].
    exact (Next_step_ok _ _ _ E).
  - apply bind_ret_inv in E. destruct E as [a E].
    exact (Backup_step_ok _ _ _ E).
  - apply bind_ret_inv in E. destruct E as [a E].
    unfold Peek, bind in E.
    destruct (Next l) as [r1 l1 | | |] eqn:N; try discriminate.
    destruct (Backup l1) as [b l2 | | |] eqn:B; try discriminate.
    inversion E; subst.
    exact (scan_step_ok_trans _ _ _ (Next_step_ok _ _ _ N)
             (Backup_step_ok _ _ _ B)).
  - apply bind_ret_inv in E. destruct E as [a E].
    unfold PeekMany, bind in E.
    destruct (Next_times (Z.to_nat n) 0 l) as [r1 l1 | | |] eqn:N;
      try discriminate.
    destruct (Backup_times (Z.to_nat n) l1) as [u l2 | | |] eqn:B;
      try discriminate.
    destruct u. inversion E; subst.
    exact (scan_step_ok_trans _ _ _ (Next_times_step_ok _ _ _ _ _ N)
             (Backup_times_step_ok _ _ _ B)).
  - apply bind_ret_inv in E. destruct E as [a E].
    unfold Take, bind in E.
    destruct (Next l) as [r1 l1 | | |] eqn:N; try discriminate.
    destruct (Strings.ContainsRune chars r1).
    + inversion E; subst. exact (Next_step_ok _ _ _ N).
    + destruct (Backup l1) as [b l2 | | |] eqn:B; try discriminate.
      inversion E; subst.
      exact (scan_step_ok_trans _ _ _ (Next_step_ok _ _ _ N)
               (Backup_step_ok _ _ _ B)).
  - unfold TakeMany, bind, get in E.
    destruct (Next l) as [r1 l1 | | |] eqn:N; try discriminate.
    destruct (TakeMany_loop chars (length (Input l1) + 2) r1 l1)
      as [u l2 | | |] eqn:T; try discriminate.
    destruct u.
    destruct (Backup l2) as [b l3 | | |] eqn:B; try discriminate.
    inversion E; subst.
    exact (scan_step_ok_trans _ _ _ (Next_step_ok _ _ _ N)
             (scan_step_ok_trans _ _ _ (TakeMany_loop_step_ok _ _ _ _ _ T)
                (Backup_step_ok _ _ _ B))).
  - apply bind_ret_inv in E. destruct E as [a E].
    unfold TakePattern, bind in E.
    destruct (Next l) as [r1 l1 | | |] eqn:N; try discriminate.
    destruct (p (string_of_rune r1)).
    + inversion E; subst. exact (Next_step_ok _ _ _ N).
    + destruct (Backup l1) as [b l2 | | |] eqn:B; try discriminate.
      inversion E; subst.
      exact (scan_step_ok_trans _ _ _ (Next_step_ok _ _ _ N)
               (Backup_step_ok _ _ _ B)).
  - unfold TakeManyPattern, bind in E.
    destruct (Next l) as [r1 l1 | | |] eqn:N; try discriminate.
    destruct (TakeManyPattern_loop p fuel r1 l1) as [u l2 | | |] eqn:T;
      try discriminate.
    destruct u.
    destruct (Backup l2) as [b l3 | | |] eqn:B; try discriminate.
    inversion E; subst.
    exact (scan_step_ok_trans _ _ _ (Next_step_ok _ _ _ N)
             (scan_step_ok_trans _ _ _
                (TakeManyPattern_loop_step_ok _ _ _ _ _ T)
                (Backup_step_ok _ _ _ B))).
Qed.

Lemma only_moved_fields (l l' : L) :
  only_moved l l' ->
  Input l' = Input l /\ Start l' = Start l /\ Tokens l' = Tokens l /\
  StartState l' = StartState l /\ Err l' = Err l /\
  ErrorHandler l' = ErrorHandler l /\ StateRecord l' = StateRecord l /\
  HandlerCalls l' = HandlerCalls l.
Proof. intros (p & rw & ->). repeat split. Qed.


Lemma wf_l_ab : wf l_ab.
Proof.
  constructor; simpl; try (unfold maxInt, len; simpl; lia).
  repeat constructor; right; reflexivity.
Qed.


Lemma Next_times_total (n : nat) :
  forall (r0 : rune) (l : L),
    wf l -> exists r l', Next_times n r0 l = Ok r l'.
Proof.
  induction n as [| n IH]; intros r0 l W.
  - exists r0, l. reflexivity.
  - destruct (Next_wf l W) as (r1 & l1 & N & W1 & _).
    destruct (IH r1 l1 W1) as (r & l2 & E).
    exists r, l2. simpl. unfold bind. rewrite N. exact E.
Qed.

Lemma Backup_times_total (n : nat) :
  forall (l : L), exists l', Backup_times n l = Ok tt l'.
Proof.
  induction n as [| n IH]; intros l.
  - exists l. reflexivity.
  - destruct (Backup_total l) as (b & l1 & B).
    destruct (IH l1) as (l2 & E).
    exists l2. simpl. unfold bind. rewrite B. exact E.
Qed.

Lemma exec_moves_cursor_total (o : Op) (l : L) :
  moves_cursor o = true -> wf l -> exists l', exec o l = Ok tt l'.
Proof.
  intros K W. destruct o; try discriminate; simpl.
  - destruct (Next_wf l W) as (r & l1 & N & _).
    exists l1. unfold bind. rewrite N. reflexivity.
  - destruct (Backup_total l) as (b & l1 & B).
    exists l1. unfold bind. rewrite B. reflexivity.
  - destruct (Next_wf l W) as (r & l1 & N & _).
    destruct (Backup_total l1) as (b & l2 & B).
    exists l2. unfold Peek, bind. rewrite N, B. reflexivity.
  - destruct (Next_times_total (Z.to_nat n) 0 l W) as (r & l1 & N).
    destruct (Backup_times_total (Z.to_nat n) l1) as (l2 & B).
    exists l2. unfold PeekMany, bind. rewrite N, B. reflexivity.
  - destruct (Next_wf l W) as (r & l1 & N & _).
    destruct (Backup_total l1) as (b & l2 & B).
    unfold Take, bind. rewrite N.
    destruct (Strings.ContainsRune chars r).
    + exists l1. reflexivity.
    + exists l2. rewrite B. reflexivity.
  - exact (TakeMany_total chars l W).
  - destruct (Next_wf l W) as (r & l1 & N & _).
    destruct (Backup_total l1) as (b & l2 & B).
    unfold TakePattern, bind. rewrite N.
    destruct (p (string_of_rune r)).
    + exists l1. reflexivity.
    + exists l2. rewrite B. reflexivity.
  - eexists. reflexivity.
Qed.

(** X2. On a well-formed lexer [Next], [Backup], [Peek], [PeekMany],
    [Take], [TakeMany], [TakePattern] and [Ignore] always return,
    whatever the bytes of the input: they do not panic, block or loop.
    The lexer they leave is well formed, with the same input and the same
    token channel. *)
Theorem scanning_never_fails (o : Op) (l : L) :
  moves_cursor o = true -> wf l ->
  exists l',
    exec o l = Ok tt l' /\ wf l' /\
    Input l' = Input l /\ Tokens l' = Tokens l /\
    Start l <= Start l' <= Position l'.
Proof.
  intros K W.
  destruct (exec_moves_cursor_total o l K W) as [l' E].
  exists l'. split; [exact E |].
  destruct o; try discriminate;
    try (match type of E with
         | exec ?o0 _ = _ =>
             pose proof (exec_scan_step_ok o0 l l' I E) as S
         end;
         destruct S as [Mv Wf];
         destruct (only_moved_fields _ _ Mv) as (Ei & Es & Et & _);
         pose proof (Wf W) as W';
         split; [exact W' |]; split; [exact Ei |]; split; [exact Et |];
         rewrite Es; split; [lia | rewrite <- Es; exact (wf_pos _ W')]).
  (* Ignore *)
  change (Ignore l = Ok tt l') in E.
  rewrite Ignore_unfold in E. inversion E; subst.
  destruct W as [W1 W2 W3 W4 W5].
  split; [constructor; simpl; try assumption; try lia; constructor |].
  repeat split; simpl; lia.
Qed.

(** [TakeMany] on ["ab"] with both bytes read. *)
Lemma scanning_never_fails_witness :
  wf l_ab /\
  exists l',
    exec (OpTakeMany (list_byte_of_string "ab")) l_ab = Ok tt l' /\
    wf l' /\ Input l' = Input l_ab /\ Tokens l' = Tokens l_ab /\
    Start l_ab <= Start l' <= Position l'.
Proof.
  split; [exact wf_l_ab |].
  exact (scanning_never_fails (OpTakeMany (list_byte_of_string "ab"))
           l_ab eq_refl wf_l_ab).
Defined.

(** * Tokens of a run that does not call IgnoreCharacter *)

Lemma spans_ordered_lo (q : list Token.t) (lo lo' hi : Z) :
  lo' <= lo -> spans_ordered lo q hi -> spans_ordered lo' q hi.
Proof.
  destruct q as [| t q]; simpl; [lia |].
  intros H (H1 & H2 & H3). repeat split; [lia | assumption | assumption].
Qed.

Lemma spans_ordered_hi (q : list Token.t) :
  forall (lo hi hi' : Z),
    hi <= hi' -> spans_ordered lo q hi -> spans_ordered lo q hi'.
Proof.
  induction q as [| t q IH]; simpl; intros lo hi hi' H; [lia |].
  intros (H1 & H2 & H3). repeat split; try assumption.
  exact (IH _ _ _ H H3).
Qed.

Lemma spans_ordered_snoc (q : list Token.t) (t : Token.t) :
  forall (lo hi : Z),
    spans_ordered lo q hi -> hi <= Token.Start t ->
    Token.Start t <= Token.End_ t ->
    spans_ordered lo (q ++ [t]) (Token.End_ t).
Proof.
  induction q as [| u q IH]; simpl; intros lo hi H H1 H2.
  - repeat split; lia.
  - destruct H as (A & B & C). repeat split; try assumption.
    exact (IH _ _ C H1 H2).
Qed.

Lemma spans_ordered_tail (t : Token.t) (q : list Token.t) (lo hi : Z) :
  spans_ordered lo (t :: q) hi -> spans_ordered lo q hi.
Proof.
  simpl. intros (A & B & C). apply (spans_ordered_lo q (Token.End_ t)); [lia |].
  exact C.
Qed.

(** When [Emit] returns, the channel was open and the token sent is the
    current lexeme. *)
Lemma Emit_inv (t : TokenType) (l l' : L) (a : unit) :
  Emit t l = Ok a l' ->
  exists c text,
    Tokens l = Some c /\ closed c = false /\
    slice (Input l) (Start l) (Position l) = Some text /\
    l' = set_Rewind [] (set_Start (Position l)
           (set_Tokens
              (Some (mkChan (cap c)
                       (queue c ++ [Token.mk t text (Start l) (Position l)])
                       false)) l)).
Proof.
  unfold Emit, Current, bind, get, sliceM, send, modify, Rewind_Clear.
  destruct (slice (Input l) (Start l) (Position l)) as [text |];
    [| discriminate].
  unfold ret at 1.
  destruct (Tokens l) as [c |] eqn:T; [| discriminate].
  destruct (closed c) eqn:C; [discriminate |].
  destruct (Z.of_nat (length (queue c)) <? cap c); [| discriminate].
  intros E. inversion E; subst.
  exists c, text. repeat split; assumption.
Qed.

Lemma slice_bounds (s t : GoString) (lo hi : Z) :
  slice s lo hi = Some t -> 0 <= lo /\ lo <= hi /\ hi <= len s.
Proof.
  unfold slice.
  destruct ((0 <=? lo) && (lo <=? hi) && (hi <=? len s)) eqn:C;
    [| discriminate].
  intros _. lia.
Qed.

Lemma exec_scan_inv (src : GoString) (o : Op) (l l' : L) :
  keeps_input o = true -> scan_inv src l -> exec o l = Ok tt l' ->
  scan_inv src l'.
Proof.
  intros K (W & Ei & Ft & Sp) E.
  assert (Moved : scan_step_ok l l' -> scan_inv src l').
  { intros [Mv Wf].
    destruct (only_moved_fields _ _ Mv) as (Ei' & Es & Et & _).
    unfold scan_inv, queued. rewrite Ei', Es, Et.
    split; [exact (Wf W) |]. split; [exact Ei |]. split; assumption. }
  destruct o; try discriminate;
    try (apply Moved;
         match type of E with
         | exec ?o0 _ = _ => exact (exec_scan_step_ok o0 l l' I E)
         end).
  - (* Emit *)
    destruct (Emit_inv _ _ _ _ E) as (c & text & T & C & S & ->).
    destruct (slice_bounds _ _ _ _ S) as (B0 & B1 & B2).
    destruct W as [W1 W2 W3 W4 W5].
    unfold scan_inv, queued in *. rewrite T in *. simpl.
    split; [constructor; simpl; try assumption; try lia; constructor |].
    split; [exact Ei |]. split.
    + apply Forall_app. split; [exact Ft |].
      constructor; [| constructor].
      unfold token_of. simpl. rewrite <- Ei. exact S.
    + apply (spans_ordered_snoc (queue c)
               (Token.mk t text (Start l) (Position l)) 0 (Start l));
        simpl; try assumption; lia.
  - (* Ignore *)
    change (Ignore l = Ok tt l') in E.
    rewrite Ignore_unfold in E. inversion E; subst.
    destruct W as [W1 W2 W3 W4 W5].
    unfold scan_inv, queued in *. simpl.
    split; [constructor; simpl; try assumption; try lia; constructor |].
    repeat split; try assumption.
    apply (spans_ordered_hi _ _ (Start l)); assumption.
  - (* Error *)
    simpl in E. unfold Error, bind, get, modify, panic in E.
    destruct (ErrorHandler l); [| discriminate].
    inversion E; subst.
    destruct W as [W1 W2 W3 W4 W5].
    unfold scan_inv, queued in *. simpl.
    split; [constructor; simpl; assumption |].
    repeat split; assumption.
  - (* NextToken *)
    simpl in E. apply bind_ret_inv in E. destruct E as [a E].
    unfold NextToken, bind, receive, ret in E.
    destruct W as [W1 W2 W3 W4 W5].
    unfold scan_inv, queued in *.
    destruct (Tokens l) as [c |] eqn:T; [| discriminate].
    destruct (queue c) as [| tok q] eqn:Q.
    + destruct (closed c); [| discriminate]. inversion E; subst.
      rewrite T, Q. split; [constructor; assumption |].
      repeat split; assumption.
    + inversion E; subst. simpl.
      split; [constructor; simpl; assumption |].
      split; [reflexivity |]. split.
      * inversion Ft; assumption.
      * exact (spans_ordered_tail _ _ _ _ Sp).
  - (* StateRecord.Push *)
    simpl in E. inversion E; subst.
    destruct W as [W1 W2 W3 W4 W5].
    unfold scan_inv, queued in *. simpl.
    split; [constructor; simpl; assumption |].
    repeat split; assumption.
  - (* StateRecord.Pop *)
    simpl in E. apply bind_ret_inv in E. destruct E as [a E].
    unfold StateRecord_Pop in E.
    destruct (stateStack.Pop (StateRecord l)) as [f s].
    inversion E; subst.
    destruct W as [W1 W2 W3 W4 W5].
    unfold scan_inv, queued in *. simpl.
    split; [constructor; simpl; assumption |].
    repeat split; assumption.
Qed.

Lemma scans_scan_inv (src : GoString) (l : L) :
  len src <= maxInt -> scans src l -> scan_inv src l.
Proof.
  intros Hint R.
  induction R as [start | l h _ IH | l size _ IH | l l' o _ IH K E].
  - unfold scan_inv, queued. simpl.
    pose proof (len_nonneg src).
    split; [constructor; simpl; try lia; try assumption; constructor |].
    repeat split; try constructor; lia.
  - destruct IH as ([W1 W2 W3 W4 W5] & Ei & Ft & Sp).
    unfold scan_inv, queued in *. simpl.
    split; [constructor; simpl; assumption |].
    repeat split; assumption.
  - destruct IH as ([W1 W2 W3 W4 W5] & Ei & Ft & Sp).
    unfold scan_inv, queued in *. simpl.
    split; [constructor; simpl; assumption |].
    split; [assumption |]. split; [constructor | simpl; lia].
  - exact (exec_scan_inv src o l l' K IH E).
Qed.

(** X3. Whatever the bytes of the input, while no transition calls
    [IgnoreCharacter] the input is never changed and the cursor stays in
    the lexeme in progress: [0 <= Start <= Position <= len(Input)], with
    only what [Next] pushes on the rewind stack. *)
Theorem scans_cursor_in_bounds (src : GoString) (l : L) :
  len src <= maxInt -> scans src l ->
  Input l = src /\
  0 <= Start l /\ Start l <= Position l /\ Position l <= len src /\
  Forall unit_ok (Rewind l).
Proof.
  intros Hint R.
  destruct (scans_scan_inv src l Hint R) as ([W1 W2 W3 W4 W5] & Ei & _).
  rewrite <- Ei. repeat split; assumption.
Qed.

Lemma scans_l_12_emitted :
  scans (list_byte_of_string "12+34") l_12_emitted.
Proof.
  apply scan_step with (l := l_12) (o := OpEmit 1);
    [| reflexivity | reflexivity].
  apply scan_step with
    (l := set_Tokens (Some (make_chan 2))
            (New (list_byte_of_string "12+34") None))
    (o := OpTakeMany (list_byte_of_string "0123456789"));
    [| reflexivity | reflexivity].
  apply scan_chan. apply scan_New.
Qed.

Lemma len_12_34 : len (list_byte_of_string "12+34") <= maxInt.
Proof. unfold maxInt, len. simpl. lia. Qed.

(** ["12+34"] after the first token. *)
Lemma scans_cursor_in_bounds_witness :
  Input l_12_emitted = list_byte_of_string "12+34" /\
  0 <= Start l_12_emitted /\
  Start l_12_emitted <= Position l_12_emitted /\
  Position l_12_emitted <= len (list_byte_of_string "12+34") /\
  Forall unit_ok (Rewind l_12_emitted).
Proof.
  exact (scans_cursor_in_bounds _ _ len_12_34 scans_l_12_emitted).
Defined.

(** X4. Whatever the bytes of the input, while no transition calls
    [IgnoreCharacter] every token waiting in the channel is a piece of
    the input: its text is [src[Start:End]].  The tokens wait in the
    order of their spans, which do not overlap and all end at or before
    the start of the lexeme in progress. *)
Theorem scans_tokens_in_order (src : GoString) (l : L) :
  len src <= maxInt -> scans src l ->
  Forall (token_of src) (queued l) /\
  spans_ordered 0 (queued l) (Start l).
Proof.
  intros Hint R.
  destruct (scans_scan_inv src l Hint R) as (_ & _ & Ft & Sp).
  split; assumption.
Qed.

Lemma scans_tokens_in_order_witness :
  Forall (token_of (list_byte_of_string "12+34")) (queued l_12_emitted) /\
  spans_ordered 0 (queued l_12_emitted) (Start l_12_emitted).
Proof.
  exact (scans_tokens_in_order _ _ len_12_34 scans_l_12_emitted).
Defined.

(** * TakeManyPattern *)

Lemma TakeManyPattern_loop_more_fuel (p : Regexp) (fuel : nat) :
  forall (fuel' : nat) (r : rune) (l l' : L),
    TakeManyPattern_loop p fuel r l = Ok tt l' -> (fuel <= fuel')%nat ->
    TakeManyPattern_loop p fuel' r l = Ok tt l'.
Proof.
  induction fuel as [| fuel IH]; intros fuel' r l l' E H; [discriminate |].
  destruct fuel' as [| fuel']; [lia |].
  simpl in *. destruct (p (string_of_rune r)); [| exact E].
  unfold bind in *. destruct (Next l) as [r1 l1 | | |]; try discriminate.
  apply IH; [exact E | lia].
Qed.

Lemma TakeManyPattern_loop_total (p : Regexp) (fuel : nat) :
  p (string_of_rune EOF) = false ->
  forall (r : rune) (l : L),
    wf l ->
    (Z.to_nat (len (Input l) - Position l) + 2 <= fuel)%nat ->
    exists l', TakeManyPattern_loop p fuel r l = Ok tt l'.
Proof.
  intros Hp. induction fuel as [| fuel IH]; intros r l W Hf; [lia |].
  simpl. destruct (p (string_of_rune r)); [| eexists; reflexivity].
  destruct (Next_wf l W) as (r' & l' & N & W' & Ei & _ & C).
  unfold bind. rewrite N.
  destruct C as [(Er & Pe & Pp) | (V & Pp)].
  - subst r'. destruct fuel as [| fuel]; [lia |].
    cbn [TakeManyPattern_loop]. rewrite Hp. eexists; reflexivity.
  - apply IH; [exact W' |]. rewrite Ei. lia.
Qed.

(** X5. Whether [TakeManyPattern] returns depends on the pattern at the
    end of the input, where the loop tests [string(rune(EOFToken))], the
    encoding of [RuneError].  With a pattern that does not match it,
    [TakeManyPattern] returns on every well-formed lexer, changing the
    cursor and the rewind stack only.  With a pattern that matches it,
    [TakeManyPattern] called at the end of the input never returns: the
    loop pushes one end-of-input mark after the other. *)
Theorem TakeManyPattern_returns (p : Regexp) (l : L) :
  wf l ->
  (p (string_of_rune EOF) = false ->
   exists l',
     wf l' /\ only_moved l l' /\
     forall fuel, (length (Input l) + 2 <= fuel)%nat ->
       TakeManyPattern p fuel l = Ok tt l')
  /\ (p (string_of_rune EOF) = true -> Position l = len (Input l) ->
      forall fuel, exists l', TakeManyPattern p fuel l = OutOfFuel l').
Proof.
  intros W. split.
  - intros Hp.
    destruct (Next_wf l W) as (r & l1 & N & W1 & Ei & _ & C).
    destruct (TakeManyPattern_loop_total p (length (Input l) + 2) Hp r l1 W1)
      as [l2 T].
    { rewrite Ei. destruct W1 as [? ? ? ? ?].
      unfold len in *. rewrite Ei in *. lia. }
    destruct (Backup_total l2) as (b & l3 & B).
    assert (S : scan_step_ok l l3).
    { exact (scan_step_ok_trans _ _ _ (Next_step_ok _ _ _ N)
               (scan_step_ok_trans _ _ _
                  (TakeManyPattern_loop_step_ok _ _ _ _ _ T)
                  (Backup_step_ok _ _ _ B))). }
    exists l3. split; [exact (proj2 S W) |]. split; [exact (proj1 S) |].
    intros fuel Hf. unfold TakeManyPattern, bind. rewrite N.
    rewrite (TakeManyPattern_loop_more_fuel p _ fuel r l1 l2 T Hf).
    rewrite B. reflexivity.
  - intros Hp P fuel.
    unfold TakeManyPattern, bind.
    rewrite (Next_at_end _ P (wf_int _ W)).
    destruct (TakeManyPattern_loop_at_end p fuel Hp
                (set_Rewind (EOF :: Rewind l) l)) as [l' E].
    + destruct W as [W1 W2 W3 W4 W5]. constructor; try assumption.
      constructor; [left; reflexivity | assumption].
    + exact P.
    + exists l'. rewrite E. reflexivity.
Qed.

(** ["x"] read to the end, with a pattern that matches every text and
    with one that matches none. *)
Lemma TakeManyPattern_returns_witness :
  wf l_end /\
  (forall fuel, exists l',
     TakeManyPattern (fun _ => true) fuel l_end = OutOfFuel l') /\
  (exists l',
     forall fuel, (length (Input l_end) + 2 <= fuel)%nat ->
       TakeManyPattern (fun _ => false) fuel l_end = Ok tt l').
Proof.
  assert (W : wf l_end).
  { constructor; simpl; try (unfold maxInt, len; simpl; lia).
    repeat constructor; right; reflexivity. }
  split; [exact W |]. split.
  - exact (proj2 (TakeManyPattern_returns (fun _ => true) l_end W)
             eq_refl eq_refl).
  - destruct (proj1 (TakeManyPattern_returns (fun _ => false) l_end W)
                eq_refl) as (l' & _ & _ & H).
    exists l'. exact H.
Defined.

(** The loop of [TakeManyPattern] on a journal lexer, entered after [r]
    was read: it reads the runes of [taken], then one [Next] more. *)
Lemma TakeManyPattern_loop_journal (p : Regexp) (taken : list rune) :
  forall (fuel : nat) (r : rune) (l : L) pre units rest k,
    journal l pre units (taken ++ rest) k ->
    Forall (fun x => p (string_of_rune x) = true) taken ->
    p (string_of_rune (hd EOF rest)) = false ->
    p (string_of_rune r) = true ->
    (length taken + 2 <= fuel)%nat ->
    exists l1,
      TakeManyPattern_loop p fuel r l = Ok tt l1 /\
      Backup l1 =
      Ok false (moved (Position l + len (encode taken))
                      (repeat EOF k ++ rev (units ++ taken)) l).
Proof.
  induction taken as [| t taken IH];
    intros fuel r l pre units rest k J F E R Hf.
  - simpl app in J.
    destruct (Next_Backup_journal _ _ _ _ _ J)
      as (l1 & u1 & r1 & k1 & N & J1 & B).
    exists l1.
    destruct fuel as [| [| fuel]]; [simpl in Hf; lia | simpl in Hf; lia |].
    split.
    + cbn [TakeManyPattern_loop]. rewrite R. unfold bind. rewrite N.
      rewrite E. reflexivity.
    + rewrite B. f_equal. symmetry. change (len (encode [])) with 0.
      apply moved_eq; [lia |].
      rewrite app_nil_r. symmetry. exact (j_rewind _ _ _ _ _ J).
  - inversion F as [| x xs Ft Fts]; subst.
    simpl app in J.
    destruct (Next_journal_cons _ _ _ _ _ _ J) as [N J1].
    destruct fuel as [| fuel]; [simpl in Hf; lia |].
    assert (Hf' : (length taken + 2 <= fuel)%nat) by (simpl in Hf; lia).
    destruct (IH fuel t _ pre (units ++ [t]) rest O J1 Fts E Ft Hf')
      as (l1 & T & B).
    exists l1. split.
    + cbn [TakeManyPattern_loop]. rewrite R. unfold bind. rewrite N.
      exact T.
    + rewrite B. rewrite moved_moved. f_equal.
      assert (K : k = O).
      { destruct k; [reflexivity |].
        pose proof (j_eof _ _ _ _ _ J ltac:(discriminate)). discriminate. }
      subst k.
      assert (V : ValidRune t = true).
      { pose proof (j_rest _ _ _ _ _ J) as Vr. inversion Vr; assumption. }
      f_equal.
      * rewrite encode_cons, len_app, (len_EncodeRune t V). simpl. lia.
      * rewrite <- app_assoc. reflexivity.
Qed.

Lemma TakeManyPattern_journal (p : Regexp) (taken : list rune)
      (fuel : nat) (l : L) pre units rest k :
  journal l pre units (taken ++ rest) k ->
  Forall (fun x => p (string_of_rune x) = true) taken ->
  p (string_of_rune (hd EOF rest)) = false ->
  (length taken + 1 <= fuel)%nat ->
  TakeManyPattern p fuel l =
  Ok tt (moved (Position l + len (encode taken))
               (repeat EOF k ++ rev (units ++ taken)) l).
Proof.
  intros J F E Hf.
  destruct taken as [| t taken].
  - simpl app in J.
    destruct (Next_Backup_journal _ _ _ _ _ J)
      as (l1 & u1 & r1 & k1 & N & J1 & B).
    unfold TakeManyPattern, bind. rewrite N.
    destruct fuel as [| fuel]; [simpl in Hf; lia |].
    cbn [TakeManyPattern_loop]. rewrite E.
    unfold ret at 1. rewrite B. unfold ret. f_equal.
    symmetry. change (len (encode [])) with 0.
    apply moved_eq; [lia |].
    rewrite app_nil_r. symmetry. exact (j_rewind _ _ _ _ _ J).
  - inversion F as [| x xs Ft Fts]; subst.
    simpl app in J.
    destruct (Next_journal_cons _ _ _ _ _ _ J) as [N J1].
    assert (Hf' : (length taken + 2 <= fuel)%nat) by (simpl in Hf; lia).
    destruct (TakeManyPattern_loop_journal p taken fuel t
                _ _ _ _ _ J1 Fts E Ft Hf') as (l1 & T & B).
    unfold TakeManyPattern, bind. rewrite N, T, B. unfold ret. f_equal.
    rewrite moved_moved.
    assert (K : k = O).
    { destruct k; [reflexivity |].
      pose proof (j_eof _ _ _ _ _ J ltac:(discriminate)). discriminate. }
    subst k.
    assert (V : ValidRune t = true).
    { pose proof (j_rest _ _ _ _ _ J) as Vr. inversion Vr; assumption. }
    f_equal.
    + rewrite encode_cons, len_app, (len_EncodeRune t V). simpl. lia.
    + rewrite <- app_assoc. reflexivity.
Qed.

(** What is left of the input of a journal lexer, as runes. *)
Lemma journal_rest_unique (l : L) pre units rest k (rs : list rune) :
  journal l pre units rest k ->
  slice (Input l) (Position l) (len (Input l)) = Some (encode rs) ->
  valid_runes rs -> rs = rest.
Proof.
  intros J S V. rewrite (journal_cursor _ _ _ _ _ J) in S.
  inversion S as [E].
  rewrite <- (runes_encode rs V), <- (runes_encode rest (j_rest _ _ _ _ _ J)).
  rewrite E. reflexivity.
Qed.

(** X6. On valid UTF-8, [TakeManyPattern] on a reachable lexer reads the
    longest run of runes the pattern matches and leaves the first rune it
    does not match unread; the pattern is given each rune as a string.
    The run may end at the end of the input when the pattern does not
    match the encoding of [RuneError]. *)
Theorem TakeManyPattern_valid_utf8 (src : GoString) (p : Regexp) (l : L)
        (taken rest : list rune) (fuel : nat) :
  valid_utf8 src -> len src <= maxInt -> reachable src l ->
  slice (Input l) (Position l) (len (Input l)) =
    Some (encode (taken ++ rest)) ->
  valid_runes (taken ++ rest) ->
  Forall (fun x => p (string_of_rune x) = true) taken ->
  p (string_of_rune (hd EOF rest)) = false ->
  (length taken + 1 <= fuel)%nat ->
  TakeManyPattern p fuel l =
  Ok tt (moved (Position l + len (encode taken))
               (rev taken ++ Rewind l) l).
Proof.
  intros V Hint R S Vr F E Hf.
  destruct (reachable_journalled src l V Hint R)
    as (pre & units & rest0 & k & J).
  pose proof (journal_rest_unique _ _ _ _ _ _ J S Vr) as Er. subst rest0.
  rewrite (TakeManyPattern_journal p taken fuel _ _ _ _ _ J F E Hf).
  f_equal. f_equal.
  rewrite (j_rewind _ _ _ _ _ J), rev_app_distr.
  destruct taken as [| t taken]; [reflexivity |].
  destruct k as [| k]; [reflexivity |].
  pose proof (j_eof _ _ _ _ _ J ltac:(discriminate)). discriminate.
Qed.

(** * Looking ahead on valid UTF-8 *)

Lemma Next_times_rune (n : nat) :
  forall (l : L) pre units rest k (r0 r : rune) (l1 : L),
    journal l pre units rest k ->
    Next_times n r0 l = Ok r l1 ->
    r = match n with O => r0 | S m => nth m rest EOF end.
Proof.
  induction n as [| n IH]; intros l pre units rest k r0 r l1 J E.
  - simpl in E. inversion E. reflexivity.
  - cbn [Next_times] in E. unfold bind in E.
    destruct rest as [| x rest].
    + destruct (Next_journal_nil _ _ _ _ J) as [N J1].
      rewrite N in E.
      rewrite (IH _ _ _ _ _ _ _ _ J1 E).
      destruct n as [| [| m]]; reflexivity.
    + destruct (Next_journal_cons _ _ _ _ _ _ J) as [N J1].
      rewrite N in E.
      rewrite (IH _ _ _ _ _ _ _ _ J1 E).
      destruct n; reflexivity.
Qed.

(** X7. On valid UTF-8, looking ahead on a reachable lexer leaves the
    lexer as it was: [Peek] returns the next rune, [PeekMany n] the
    [n]-th rune ahead of the cursor, and both the end mark where the
    input has no such rune; [PeekMany n] with [n <= 0] returns 0, the
    zero value of its result. *)
Theorem lookahead_valid_utf8 (src : GoString) (l : L) (rest : list rune)
        (n : Z) :
  valid_utf8 src -> len src <= maxInt -> reachable src l ->
  slice (Input l) (Position l) (len (Input l)) = Some (encode rest) ->
  valid_runes rest ->
  Peek l = Ok (hd EOF rest) l /\
  PeekMany n l =
    Ok (if n <=? 0 then 0 else nth (Z.to_nat (n - 1)) rest EOF) l.
Proof.
  intros V Hint R Hs Vr.
  destruct (reachable_journalled src l V Hint R)
    as (pre & units & rest0 & k & J).
  pose proof (journal_rest_unique _ _ _ _ _ _ J Hs Vr) as Er. subst rest0.
  split; [exact (Peek_journal _ _ _ _ _ J) |].
  unfold PeekMany.
  destruct (Next_times_journal (Z.to_nat n) l pre units rest k 0 J)
    as (r & l1 & N & B).
  unfold bind. rewrite N, B. unfold ret. f_equal.
  rewrite (Next_times_rune _ _ _ _ _ _ _ _ _ J N).
  destruct (n <=? 0) eqn:E.
  - apply Z.leb_le in E. replace (Z.to_nat n) with O by lia. reflexivity.
  - apply Z.leb_gt in E.
    replace (Z.to_nat n) with (S (Z.to_nat (n - 1))) by lia. reflexivity.
Qed.

(** * Take and TakePattern on valid UTF-8 *)

(** X8. On valid UTF-8, [Take] and [TakePattern] on a reachable lexer
    test the next rune: when it is accepted the lexer is left as [Next]
    leaves it, when it is refused the lexer is left as it was.  [Take]
    at the end of the input refuses, whatever the characters. *)
Theorem Take_valid_utf8 (src chars : GoString) (p : Regexp) (l : L)
        (rest : list rune) :
  valid_utf8 src -> len src <= maxInt -> reachable src l ->
  slice (Input l) (Position l) (len (Input l)) = Some (encode rest) ->
  valid_runes rest ->
  exists l1,
    Next l = Ok (hd EOF rest) l1 /\
    Take chars l =
      (if Strings.ContainsRune chars (hd EOF rest)
       then Ok true l1 else Ok false l) /\
    TakePattern p l =
      (if p (string_of_rune (hd EOF rest))
       then Ok true l1 else Ok false l) /\
    (rest = [] -> Take chars l = Ok false l).
Proof.
  intros V Hint R Hs Vr.
  destruct (reachable_journalled src l V Hint R)
    as (pre & units & rest0 & k & J).
  pose proof (journal_rest_unique _ _ _ _ _ _ J Hs Vr) as Er. subst rest0.
  destruct (Next_Backup_journal _ _ _ _ _ J)
    as (l1 & u1 & r1 & k1 & N & J1 & B).
  exists l1.
  assert (T : Take chars l =
              if Strings.ContainsRune chars (hd EOF rest)
              then Ok true l1 else Ok false l).
  { unfold Take, bind. rewrite N.
    destruct (Strings.ContainsRune chars (hd EOF rest)); [reflexivity |].
    rewrite B. reflexivity. }
  split; [exact N |]. split; [exact T |]. split.
  - unfold TakePattern, bind. rewrite N.
    destruct (p (string_of_rune (hd EOF rest))); [reflexivity |].
    rewrite B. reflexivity.
  - intros ->. rewrite T. cbn [hd]. rewrite ContainsRune_EOF. reflexivity.
Qed.

(** * Next and Backup undo each other on valid UTF-8 *)

(** X9. On valid UTF-8, on a reachable lexer, [Backup] never reports an
    overflow, and [Next] and [Backup] undo each other: [Backup] after
    [Next] gives the lexer back, and with an entry on the rewind stack
    [Next] after [Backup] returns that entry and gives the lexer back. *)
Theorem Next_Backup_round_trip (src : GoString) (l : L) :
  valid_utf8 src -> len src <= maxInt -> reachable src l ->
  (exists r l1, Next l = Ok r l1 /\ Backup l1 = Ok false l) /\
  (exists l0,
     Backup l = Ok false l0 /\
     forall r s, Rewind l = r :: s ->
       Rewind l0 = s /\ Next l0 = Ok r l).
Proof.
  intros V Hint R.
  destruct (reachable_journalled src l V Hint R)
    as (pre & units & rest & k & J).
  split.
  - destruct (Next_Backup_journal _ _ _ _ _ J)
      as (l1 & u1 & r1 & k1 & N & J1 & B).
    exists (hd EOF rest), l1. split; assumption.
  - destruct k as [| k].
    + destruct units as [| u us _] using rev_ind.
      * exists l. split; [exact (Backup_journal_empty _ _ _ J) |].
        intros r s E. rewrite (j_rewind _ _ _ _ _ J) in E. discriminate.
      * destruct (Backup_journal_unit _ _ _ _ _ J) as [B J0].
        eexists. split; [exact B |].
        intros r s E. rewrite (j_rewind _ _ _ _ _ J) in E.
        rewrite rev_app_distr in E. simpl in E. inversion E; subst r s.
        split; [reflexivity |].
        destruct (Next_journal_cons _ _ _ _ _ _ J0) as [N _].
        rewrite N. f_equal. rewrite moved_moved.
        apply moved_eq.
        -- simpl. lia.
        -- simpl. rewrite (j_rewind _ _ _ _ _ J), rev_app_distr.
           reflexivity.
    + destruct (Backup_journal_mark _ _ _ _ _ J) as [B J0].
      eexists. split; [exact B |].
      intros r s E. rewrite (j_rewind _ _ _ _ _ J) in E.
      simpl in E. inversion E; subst r s.
      split; [reflexivity |].
      pose proof (j_eof _ _ _ _ _ J ltac:(discriminate)) as Er. subst rest.
      destruct (Next_journal_nil _ _ _ _ J0) as [N _].
      rewrite N. f_equal. rewrite moved_moved.
      apply moved_eq.
      * reflexivity.
      * simpl. rewrite (j_rewind _ _ _ _ _ J). reflexivity.
Qed.

(** * Boundaries *)

Lemma Backup_times_empty (n : nat) (l : L) :
  Rewind l = [] -> Backup_times n l = Ok tt l.
Proof.
  intros E. induction n as [| n IH]; [reflexivity |].
  cbn [Backup_times]. unfold bind. rewrite (Backup_empty _ E). exact IH.
Qed.

(** X10. [Emit] and [Ignore] set a boundary: after either, on a
    well-formed lexer, the text of the lexeme in progress is empty and
    [Backup], however often it is called, does not move the cursor back
    over the boundary: the lexer stays as it is. *)
Theorem boundary_stops_Backup (o : Op) (l l' : L) (n : nat) :
  wf l -> (o = OpIgnore \/ exists t, o = OpEmit t) ->
  exec o l = Ok tt l' ->
  Start l' = Position l /\ Position l' = Position l /\
  Current l' = Ok [] l' /\
  Backup_times n l' = Ok tt l'.
Proof.
  intros W Ho E.
  assert (F : Input l' = Input l /\ Start l' = Position l /\
              Position l' = Position l /\ Rewind l' = []).
  { destruct Ho as [-> | [t ->]].
    - change (Ignore l = Ok tt l') in E. rewrite Ignore_unfold in E.
      inversion E. repeat split.
    - exact (Emit_fields t l l' tt W E). }
  destruct F as (Fi & Fs & Fp & Fr).
  split; [exact Fs |]. split; [exact Fp |]. split.
  - destruct W as [W1 W2 W3 W4 W5].
    rewrite Current_ok by (rewrite ?Fi, ?Fs, ?Fp; lia).
    rewrite Fs, Fp, Z.sub_diag. reflexivity.
  - exact (Backup_times_empty n l' Fr).
Qed.

(** * Samples on ["ab"] *)

Lemma len_ab : len (list_byte_of_string "ab") <= maxInt.
Proof. unfold maxInt, len. simpl. lia. Qed.

Lemma valid_runes_ab : valid_runes [97; 98].
Proof. repeat constructor. Qed.

Lemma one_byte_ab :
  Forall (fun x => one_byte (string_of_rune x) = true) [97; 98].
Proof. repeat constructor. Qed.

(** ["ab"] from the start, with the pattern of one byte. *)
Lemma TakeManyPattern_valid_utf8_witness :
  TakeManyPattern one_byte 3 l_ab_new = Ok tt (moved 2 [98; 97] l_ab_new).
Proof.
  exact (TakeManyPattern_valid_utf8 (list_byte_of_string "ab") one_byte
           l_ab_new [97; 98] [] 3%nat
           valid_utf8_ab len_ab (reach_New _ None) eq_refl valid_runes_ab
           one_byte_ab
           eq_refl (le_n 3)).
Defined.

(** ["ab"] from the start: ['a'] is next, ['b'] is second. *)
Lemma lookahead_valid_utf8_witness :
  Peek l_ab_new = Ok 97 l_ab_new /\ PeekMany 2 l_ab_new = Ok 98 l_ab_new.
Proof.
  exact (lookahead_valid_utf8 (list_byte_of_string "ab") l_ab_new
           [97; 98] 2
           valid_utf8_ab len_ab (reach_New _ None) eq_refl valid_runes_ab).
Defined.

(** ["ab"] from the start, taking an ['a']. *)
Lemma Take_valid_utf8_witness :
  exists l1,
    Next l_ab_new = Ok 97 l1 /\
    Take [x61] l_ab_new = Ok true l1 /\
    TakePattern one_byte l_ab_new = Ok true l1 /\
    (@eq (list rune) [97; 98] [] -> Take [x61] l_ab_new = Ok false l_ab_new).
Proof.
  exact (Take_valid_utf8 (list_byte_of_string "ab") [x61] one_byte l_ab_new
           [97; 98]
           valid_utf8_ab len_ab (reach_New _ None) eq_refl valid_runes_ab).
Defined.

(** ["ab"] with both bytes read. *)
Lemma Next_Backup_round_trip_witness :
  (exists r l1, Next l_ab = Ok r l1 /\ Backup l1 = Ok false l_ab) /\
  (exists l0,
     Backup l_ab = Ok false l0 /\
     forall r s, Rewind l_ab = r :: s ->
       Rewind l0 = s /\ Next l0 = Ok r l_ab).
Proof.
  exact (Next_Backup_round_trip (list_byte_of_string "ab") l_ab
           valid_utf8_ab len_ab reachable_l_ab).
Defined.

(** ["ab"] with both bytes read, after [Ignore]. *)
Lemma boundary_stops_Backup_witness :
  wf l_ab /\
  Start (moved 2 [] (set_Start 2 l_ab)) = Position l_ab /\
  Position (moved 2 [] (set_Start 2 l_ab)) = Position l_ab /\
  Current (moved 2 [] (set_Start 2 l_ab)) =
    Ok [] (moved 2 [] (set_Start 2 l_ab)) /\
  Backup_times 3 (moved 2 [] (set_Start 2 l_ab)) =
    Ok tt (moved 2 [] (set_Start 2 l_ab)).
Proof.
  split; [exact wf_l_ab |].
  exact (boundary_stops_Backup OpIgnore l_ab _ 3%nat
           wf_l_ab (or_introl eq_refl) eq_refl).
Defined.

(** * The state stack *)

Lemma Push_all_rev (fs : list StateFunc) :
  forall s, Push_all fs s = rev fs ++ s.
Proof.
  induction fs as [| f fs IH]; intros s; [reflexivity |].
  unfold Push_all in *. simpl. rewrite IH.
  unfold stateStack.Push. rewrite <- app_assoc. reflexivity.
Qed.

Lemma Pop_times_app (xs : list StateFunc) :
  forall (n : nat) (s : stateStack.t),
    Pop_times (length xs + n) (xs ++ s) =
    (map Some xs ++ fst (Pop_times n s), snd (Pop_times n s)).
Proof.
  induction xs as [| x xs IH]; intros n s.
  - simpl. destruct (Pop_times n s); reflexivity.
  - simpl. rewrite IH. reflexivity.
Qed.

Lemma Pop_times_nil (n : nat) : Pop_times n [] = (repeat None n, []).
Proof.
  induction n as [| n IH]; [reflexivity |].
  simpl. rewrite IH. reflexivity.
Qed.

(** X11. The state stack is last in, first out: after the states of
    [fs] are pushed in turn, as many calls of [Pop] return them in the
    reverse order and leave the stack as it was before; on a new stack,
    and after [Clear], every further [Pop] returns [nil].  In the lexer,
    [StateRecord.Pop] after [StateRecord.Push] returns the state pushed
    and gives the lexer back. *)
Theorem stateStack_LIFO (fs : list StateFunc) (s : stateStack.t) (n : nat)
        (f : StateFunc) (l : L) :
  Pop_times (length fs) (Push_all fs s) = (map Some (rev fs), s) /\
  Pop_times (length fs + n) (Push_all fs stateStack.NewStateStack) =
    (map Some (rev fs) ++ repeat None n, []) /\
  Pop_times n (stateStack.Clear s) = (repeat None n, []) /\
  (StateRecord_Push f ;; StateRecord_Pop) l = Ok (Some f) l.
Proof.
  repeat split.
  - rewrite Push_all_rev.
    rewrite <- (length_rev fs), <- (Nat.add_0_r (length (rev fs))).
    rewrite Pop_times_app. simpl. rewrite app_nil_r. reflexivity.
  - rewrite Push_all_rev, <- (length_rev fs).
    unfold stateStack.NewStateStack.
    rewrite Pop_times_app, Pop_times_nil. reflexivity.
  - apply Pop_times_nil.
  - destruct l; reflexivity.
Qed.

(** * NextToken *)

Lemma NextToken_times_queue (q : list Token.t) :
  forall (l : L) (size : Z) (cl : bool) (m : nat),
    Tokens l = Some (mkChan size q cl) ->
    NextToken_times (length q + m) l =
    (ys <- NextToken_times m ;; ret (received q ++ ys))
      (set_Tokens (Some (mkChan size [] cl)) l).
Proof.
  induction q as [| t q IH]; intros l size cl m T.
  - assert (E : set_Tokens (Some (mkChan size [] cl)) l = l).
    { destruct l; simpl in *; subst; reflexivity. }
    rewrite E. simpl. unfold bind.
    destruct (NextToken_times m l); reflexivity.
  - cbn [length Nat.add NextToken_times].
    unfold bind at 1. unfold NextToken, bind at 1, receive.
    rewrite T. cbn [queue cap closed]. unfold ret at 1.
    unfold bind at 1.
    rewrite (IH (set_Tokens (Some (mkChan size q cl)) l) size cl m eq_refl).
    change (set_Tokens (Some (mkChan size [] cl))
              (set_Tokens (Some (mkChan size q cl)) l))
      with (set_Tokens (Some (mkChan size [] cl)) l).
    unfold bind.
    destruct (NextToken_times m (set_Tokens (Some (mkChan size [] cl)) l));
      reflexivity.
Qed.

Lemma NextToken_times_finished (n : nat) (l : L) (size : Z) :
  Tokens l = Some (mkChan size [] true) ->
  NextToken_times n l = Ok (repeat (None, true) n) l.
Proof.
  intros T. induction n as [| n IH]; [reflexivity |].
  cbn [NextToken_times]. unfold bind at 1.
  unfold NextToken, bind at 1, receive. rewrite T. cbn [queue closed].
  unfold ret at 1. unfold bind. rewrite IH. reflexivity.
Qed.

Lemma NextToken_drain (l : L) (c : Chan) (n : nat) :
  Tokens l = Some c -> closed c = true ->
  NextToken_times (length (queue c) + n) l =
  Ok (received (queue c) ++ repeat (None, true) n) (drained c l).
Proof.
  intros T C. destruct c as [size q cl]. simpl in C. subst cl.
  cbn [queue]. rewrite (NextToken_times_queue q l size true n T).
  unfold bind, drained. cbn [cap closed].
  rewrite (NextToken_times_finished n
             (set_Tokens (Some (mkChan size [] true)) l) size eq_refl).
  reflexivity.
Qed.

(** X12. A consumer calling [NextToken] gets the tokens in the order
    they were sent, each with [false].  Once they are received, a closed
    channel gives [(nil, true)] on every further call, and an open one
    makes the next call wait; on a nil channel the first call waits. *)
Theorem NextToken_in_order (l : L) (n : nat) :
  match Tokens l with
  | None => NextToken l = Blocked l
  | Some c =>
      NextToken_times (length (queue c)) l =
        Ok (received (queue c)) (drained c l) /\
      if closed c
      then NextToken_times (length (queue c) + n) l =
             Ok (received (queue c) ++ repeat (None, true) n) (drained c l)
      else NextToken_times (length (queue c) + S n) l =
             Blocked (drained c l)
  end.
Proof.
  destruct (Tokens l) as [c |] eqn:T.
  - split.
    + destruct c as [size q cl]. cbn [queue].
      rewrite <- (Nat.add_0_r (length q)).
      rewrite (NextToken_times_queue q l size cl 0 T).
      unfold bind, drained. simpl. rewrite app_nil_r. reflexivity.
    + destruct (closed c) eqn:C.
      * exact (NextToken_drain l c n T C).
      * destruct c as [size q cl]. simpl in C. subst cl. cbn [queue].
        rewrite (NextToken_times_queue q l size false (S n) T).
        reflexivity.
  - unfold NextToken, bind, receive. rewrite T. reflexivity.
Qed.

(** * RunLexerSync *)

Lemma close_Ok (l l' : L) :
  close l = Ok tt l' -> exists c, Tokens l' = Some c /\ closed c = true.
Proof.
  unfold close. destruct (Tokens l) as [c |]; [| discriminate].
  destruct (closed c); [discriminate |].
  intros E. inversion E. eexists. split; reflexivity.
Qed.

Lemma run_Ok (prog : Program) (fuel : nat) (l l' : L) :
  run prog fuel l = Ok tt l' ->
  exists c, Tokens l' = Some c /\ closed c = true.
Proof.
  unfold run, bind, get. intros E.
  destruct (run_loop prog fuel (StartState l) l) as [a l1 | | |];
    try discriminate.
  exact (close_Ok l1 l' E).
Qed.

(** X13. When [RunLexerSync] returns, the channel is closed: a consumer
    calling [NextToken] afterwards gets the tokens still queued, in the
    order they were sent, and then [(nil, true)] on every further call;
    no call waits. *)
Theorem RunLexerSync_then_NextToken (prog : Program) (fuel : nat)
        (l l' : L) (n : nat) :
  RunLexerSync prog fuel l = Ok tt l' ->
  exists c,
    Tokens l' = Some c /\ closed c = true /\
    NextToken_times (length (queue c) + n) l' =
      Ok (received (queue c) ++ repeat (None, true) n) (drained c l').
Proof.
  unfold RunLexerSync. cbv zeta. intros E.
  destruct (run_Ok prog fuel _ l' E) as (c & T & C).
  exists c. split; [exact T |]. split; [exact C |].
  exact (NextToken_drain l' c n T C).
Qed.

(** ["x"] lexed with [prog_one]: its one token, then the end. *)
Lemma RunLexerSync_then_NextToken_witness :
  exists l',
    RunLexerSync prog_one 1 (New [x78] (Some O)) = Ok tt l' /\
    exists c,
      Tokens l' = Some c /\ closed c = true /\
      NextToken_times (length (queue c) + 2) l' =
        Ok (received (queue c) ++ repeat (None, true) 2) (drained c l').
Proof.
  eexists. split; [reflexivity |].
  exact (RunLexerSync_then_NextToken prog_one 1 (New [x78] (Some O)) _ 2%nat
           eq_refl).
Defined.

(** * Emit that does not return *)


(** * IgnoreCharacter outside its guard *)

(** X15. [IgnoreCharacter] called with nothing to ignore, the rewind
    stack empty or an end mark on top: [Pop] returns [rune(EOFToken)],
    whose [RuneLen] is -1, so the width is -1.  At the end of the input
    the call panics, the slice bound being past the end.  Before the end
    it does not remove a byte but adds one: the input becomes
    [Input[:Position+1] + Input[Position:]], one byte longer, and the
    cursor moves forward by one. *)
Theorem IgnoreCharacter_unguarded (l : L) :
  wf l -> fst (runeStack.Pop (Rewind l)) = EOF ->
  (Position l = len (Input l) ->
   IgnoreCharacter l = Panic RuntimeError (set_Rewind (tl (Rewind l)) l)) /\
  (Position l < len (Input l) ->
   IgnoreCharacter l =
     Ok tt (moved (Position l + 1) (tl (Rewind l))
              (set_Input
                 (firstn (Z.to_nat (Position l + 1)) (Input l) ++
                  skipn (Z.to_nat (Position l)) (Input l)) l)) /\
   len (firstn (Z.to_nat (Position l + 1)) (Input l) ++
        skipn (Z.to_nat (Position l)) (Input l)) = len (Input l) + 1).
Proof.
  intros W E.
  assert (Es : snd (runeStack.Pop (Rewind l)) = tl (Rewind l)).
  { destruct (Rewind l); reflexivity. }
  destruct W as [W1 W2 W3 W4 W5].
  change (RuneLen EOF) with (-1) in *.
  split.
  - intros P. rewrite IgnoreCharacter_unfold. cbv zeta.
    rewrite E, Es. change (RuneLen EOF) with (-1).
    rewrite (slice_None (Input l) 0 (int64 (Position l - -1)));
      [reflexivity |].
    destruct (Z.eq_dec (Position l) maxInt) as [Pm | Pm].
    + right; left. rewrite Pm. vm_compute. reflexivity.
    + right; right. rewrite int64_id by (unfold maxInt in *; lia). lia.
  - intros P.
    assert (Hp : int64 (Position l - -1) = Position l + 1).
    { apply int64_id. unfold maxInt in W4. lia. }
    split.
    + rewrite IgnoreCharacter_unfold. cbv zeta.
      rewrite E, Es. change (RuneLen EOF) with (-1). rewrite Hp.
      rewrite (slice_Some (Input l) 0 (Position l + 1)) by lia.
      rewrite (slice_Some (Input l) (Position l) (len (Input l))) by lia.
      rewrite Z.sub_0_r. cbn [Z.to_nat skipn].
      replace (Z.to_nat (len (Input l) - Position l))
        with (length (skipn (Z.to_nat (Position l)) (Input l)))
        by (rewrite length_skipn; unfold len in *; lia).
      rewrite firstn_all. reflexivity.
    + unfold len in *. rewrite length_app, length_firstn, length_skipn. lia.
Qed.

(** ["ab"] and the empty input from the start, the rewind stack empty. *)
Lemma IgnoreCharacter_unguarded_witness :
  wf l_ab_new /\
  IgnoreCharacter l_ab_new =
    Ok tt (moved 1 [] (set_Input [x61; x61; x62] l_ab_new)) /\
  IgnoreCharacter (New [] None) = Panic RuntimeError (New [] None).
Proof.
  assert (W : wf l_ab_new).
  { constructor; simpl; try (unfold maxInt, len; simpl; lia). constructor. }
  assert (W0 : wf (New [] None)).
  { constructor; simpl; try (unfold maxInt, len; simpl; lia). constructor. }
  split; [exact W |]. split.
  - exact (proj1 (proj2 (IgnoreCharacter_unguarded l_ab_new W eq_refl)
                    ltac:(unfold len; simpl; lia))).
  - exact (proj1 (IgnoreCharacter_unguarded (New [] None) W0 eq_refl)
             eq_refl).
Defined.

(** * TakeMany and TakeManyPattern agree *)

(** X16. On valid UTF-8, on a reachable lexer, [TakeManyPattern] with a
    pattern that matches the runes of [chars] among the runes left, and
    not the text [string(rune(EOFToken))] it is given at the end of the
    input, does what [TakeMany chars] does. *)
Theorem TakeManyPattern_as_TakeMany (src chars : GoString) (p : Regexp)
        (l : L) (rest : list rune) (fuel : nat) :
  valid_utf8 src -> len src <= maxInt -> reachable src l ->
  slice (Input l) (Position l) (len (Input l)) = Some (encode rest) ->
  valid_runes rest ->
  Forall (fun r => p (string_of_rune r) = Strings.ContainsRune chars r)
         (EOF :: rest) ->
  (length rest + 1 <= fuel)%nat ->
  TakeManyPattern p fuel l = TakeMany chars l.
Proof.
  intros V Hint R Hs Vr F Hf.
  destruct (reachable_journalled src l V Hint R)
    as (pre & units & rest0 & k & J).
  pose proof (journal_rest_unique _ _ _ _ _ _ J Hs Vr) as Er. subst rest0.
  destruct (take_run_split chars rest) as (taken & rest2 & E & Ft & Re).
  subst rest.
  destruct (TakeMany_journal chars taken l pre units rest2 k J Ft Re)
    as [T _].
  rewrite T.
  apply (TakeManyPattern_journal p taken fuel l pre units rest2 k J).
  - inversion F as [| x xs _ Fr]; subst.
    apply Forall_app in Fr. destruct Fr as [Fr _].
    rewrite Forall_forall in *. intros x Hx.
    rewrite (Fr x Hx). exact (Ft x Hx).
  - unfold run_end in Re. rewrite <- Re.
    rewrite Forall_forall in F. apply F.
    destruct rest2 as [| y rest2]; [left; reflexivity |].
    right. apply in_or_app. right. left. reflexivity.
  - rewrite length_app in Hf. lia.
Qed.

Lemma one_byte_as_ab :
  Forall (fun r => one_byte (string_of_rune r) =
                   Strings.ContainsRune (list_byte_of_string "ab") r)
         [EOF; 97; 98].
Proof. repeat constructor. Qed.

(** ["ab"] from the start: the pattern of one byte and the characters
    ["ab"]. *)
Lemma TakeManyPattern_as_TakeMany_witness :
  TakeManyPattern one_byte 3 l_ab_new =
  TakeMany (list_byte_of_string "ab") l_ab_new.
Proof.
  exact (TakeManyPattern_as_TakeMany (list_byte_of_string "ab")
           (list_byte_of_string "ab") one_byte l_ab_new [97; 98] 3%nat
           valid_utf8_ab len_ab (reach_New _ None) eq_refl valid_runes_ab
           one_byte_as_ab (le_n 3)).
Defined.

(** * The end of the input *)

(** X17. Reading goes to the end of the input and stays there: on a
    well-formed lexer with at most [n] bytes left, whatever the bytes,
    the call of [Next] after [n] calls returns the end mark, with the
    cursor at the end of the input. *)
Theorem Next_reaches_end (n : nat) :
  forall (l : L) (r0 : rune),
    wf l -> (Z.to_nat (len (Input l) - Position l) <= n)%nat ->
    exists l',
      Next_times (S n) r0 l = Ok EOF l' /\
      wf l' /\ Input l' = Input l /\ Position l' = len (Input l).
Proof.
  induction n as [| n IH]; intros l r0 W Hn.
  - assert (P : Position l = len (Input l)).
    { destruct W as [W1 W2 W3 W4 W5]. lia. }
    destruct (Next_wf l W) as (r & l1 & N & W1 & Ei & _ & C).
    exists l1. cbn [Next_times]. unfold bind. rewrite N.
    destruct C as [(Er & _ & Pp) | (_ & Pp)]; [| lia].
    subst r. split; [reflexivity |]. split; [exact W1 |].
    split; [exact Ei | lia].
  - destruct (Next_wf l W) as (r & l1 & N & W1 & Ei & _ & C).
    destruct (IH l1 r W1) as (l' & T & W' & Ei' & P').
    { rewrite Ei. destruct C as [(_ & Pe & Pp) | (_ & Pp)]; lia. }
    exists l'. split.
    + change (Next_times (S (S n)) r0 l)
        with ((r' <- Next ;; Next_times (S n) r') l).
      unfold bind at 1. rewrite N. exact T.
    + rewrite <- Ei. split; [exact W' |]. split; [exact Ei' | exact P'].
Qed.

(** ["ab"] from the start: the third [Next] returns the end mark. *)
Lemma Next_reaches_end_witness :
  exists l',
    Next_times 3 0 l_ab_new = Ok EOF l' /\
    wf l' /\ Input l' = Input l_ab_new /\
    Position l' = len (Input l_ab_new).
Proof.
  apply (Next_reaches_end 2 l_ab_new 0).
  - constructor; simpl; try (unfold maxInt, len; simpl; lia). constructor.
  - simpl. lia.
Defined.

(** * Samples for TakeMany and IgnoreCharacter on valid UTF-8 *)

(** ["ab"] from the start, taking the run of ['a']. *)
Lemma TakeMany_valid_utf8_witness :
  exists taken rest,
    slice (Input l_ab_new) (Position l_ab_new) (len (Input l_ab_new)) =
      Some (encode taken ++ encode rest) /\
    valid_runes taken /\ valid_runes rest /\
    Forall (fun x => Strings.ContainsRune [x61] x = true) taken /\
    Strings.ContainsRune [x61] (hd EOF rest) = false /\
    TakeMany [x61] l_ab_new =
      Ok tt (moved (Position l_ab_new + len (encode taken))
                   (rev taken ++ Rewind l_ab_new) l_ab_new) /\
    (rest = [] ->
     Position l_ab_new + len (encode taken) = len (Input l_ab_new)).
Proof.
  exact (TakeMany_valid_utf8 (list_byte_of_string "ab") [x61] l_ab_new
           valid_utf8_ab len_ab (reach_New _ None)).
Defined.

(** ["ab"] with both bytes read: the ['b'] is cut out. *)
Lemma IgnoreCharacter_valid_utf8_witness :
  exists before after text,
    Input l_ab = before ++ EncodeRune 98 ++ after /\
    Position l_ab = len before + RuneLen 98 /\
    len (EncodeRune 98) = RuneLen 98 /\
    Current l_ab = Ok (text ++ EncodeRune 98) l_ab /\
    IgnoreCharacter l_ab =
      Ok tt (moved (Position l_ab - RuneLen 98) [97]
                   (set_Input (before ++ after) l_ab)) /\
    Current (moved (Position l_ab - RuneLen 98) [97]
                   (set_Input (before ++ after) l_ab)) =
      Ok text (moved (Position l_ab - RuneLen 98) [97]
                     (set_Input (before ++ after) l_ab)).
Proof.
  exact (IgnoreCharacter_valid_utf8 (list_byte_of_string "ab") l_ab 98 [97]
           valid_utf8_ab len_ab reachable_l_ab eq_refl
           ltac:(discriminate)).
Defined.

(** * Peek on any input *)




